(** * Scribo live scriber: a shallow embedding of the client logic

    The development follows the three TypeScript modules of the repository:

    - [src/services/geminiService.ts]  (module [Service]),
    - [src/hooks/useAudioRecorder.ts]  (module [Recorder]),
    - [src/App.tsx]                    (module [App]).

    JavaScript strings are sequences of UTF-16 code units; they are modelled
    as [list N].  Promises are modelled by their outcome, supplied by the
    environment; every handler runs to completion on the state it is given.
    [startChunkLoop], the one handler of the hook that awaits, is given both
    as a whole run and as the fragments between its awaits, among which the
    other handlers may run ([Recorder.run_op]). *)

From stdpp Require Import gmap list strings.
From Stdlib Require Import ZArith Ascii DecimalString.

Open Scope Z_scope.

(** ** JavaScript strings *)

Module Js.

Abbreviation jsstr := (list N).

(** A string literal of the source, one code unit per character. *)
Definition lit (s : string) : jsstr :=
  (λ a, N_of_ascii a) <$> String.list_ascii_of_string s.

(** The line feed of the template literals. *)
Definition LF : N := 10%N.

(** [WhiteSpace] and [LineTerminator] code units, as stripped by
    [String.prototype.trim]. *)
Definition is_space (c : N) : bool :=
  (  (c =? 9) || (c =? 10) || (c =? 11) || (c =? 12) || (c =? 13)
  || (c =? 32) || (c =? 160) || (c =? 5760)
  || ((8192 <=? c) && (c <=? 8202))
  || (c =? 8232) || (c =? 8233) || (c =? 8239) || (c =? 8287)
  || (c =? 12288) || (c =? 65279))%N.

Fixpoint trimStart (s : jsstr) : jsstr :=
  match s with
  | c :: s' => if is_space c then trimStart s' else s
  | [] => []
  end.

Definition trimEnd (s : jsstr) : jsstr := reverse (trimStart (reverse s)).

Definition trim (s : jsstr) : jsstr := trimEnd (trimStart s).

(** Empty or made of white space only. *)
Definition blank (s : jsstr) : bool := forallb is_space s.

(** Truthiness of an object reference that may be null. *)
Definition present {A : Type} (o : option A) : bool :=
  match o with Some _ => true | None => false end.

(** Truthiness of a string: [!s] holds exactly for the empty string. *)
Definition truthy (s : jsstr) : bool :=
  match s with [] => false | _ :: _ => true end.

Fixpoint startsWith (sub s : jsstr) : bool :=
  match sub, s with
  | [], _ => true
  | _ :: _, [] => false
  | c :: sub', d :: s' => (c =? d)%N && startsWith sub' s'
  end.

(** [s.includes(sub)] *)
Fixpoint includes (s sub : jsstr) : bool :=
  startsWith sub s ||
  match s with
  | [] => false
  | _ :: s' => includes s' sub
  end.

(** [s.split(sep)] for a one-unit separator. *)
Fixpoint split (sep : N) (s : jsstr) : list jsstr :=
  match s with
  | [] => [[]]
  | c :: s' =>
      if (c =? sep)%N then [] :: split sep s'
      else match split sep s' with
           | [] => [[c]]
           | w :: ws => (c :: w) :: ws
           end
  end.

(** [n.toString()] for an integer. *)
Definition toString (n : Z) : jsstr := lit (NilZero.string_of_int (Z.to_int n)).

(** [s.length] *)
Definition len (s : jsstr) : Z := Z.of_nat (List.length s).

(** A thrown value, seen through the two views the source takes of it:
    [String(err)] and [err.message]. *)
Record Thrown := { e_string : jsstr; e_message : jsstr }.

(** [new Error(m)] *)
Definition mkError (m : jsstr) : Thrown :=
  {| e_string := match m with
                 | [] => lit "Error"
                 | _ => lit "Error: " ++ m
                 end;
     e_message := m |}.

(** Completion of a function body: a value or a thrown value. *)
Inductive Result (A : Type) : Type :=
| Returns (a : A)
| Throws (e : Thrown).
Global Arguments Returns {A} a.
Global Arguments Throws {A} e.

(** Outcome of an awaited promise of the platform. *)
Inductive Outcome (A : Type) : Type :=
| Resolved (a : A)
| Rejected (e : Thrown).
Global Arguments Resolved {A} a.
Global Arguments Rejected {A} e.

(** A [Blob]: its byte size and its MIME type. *)
Record Blob := { size : N; type : jsstr }.

End Js.
Import Js.

(** ** src/services/geminiService.ts *)

Module Service.

(** A [generateContent] request as it leaves the client.  The fixed prompt
    texts are constants of the source and are not represented. *)
Inductive Request : Type :=
| TranscribeRequest (model mimeType : jsstr) (data : option jsstr)
| AnalyzeRequest (model text : jsstr).

Definition MODEL : jsstr := lit "gemini-2.5-flash".

Definition MSG_KEY_MISSING : jsstr :=
  lit "Gemini API Key is missing. Please check your environment configuration.".
Definition MSG_TRANSCRIPTION_FAILED : jsstr := lit "Transcription failed.".
Definition MSG_UNAUTHORIZED : jsstr := lit "Invalid API Key or unauthorized access.".
Definition MSG_USAGE_LIMIT : jsstr := lit "Usage limit exceeded. Please wait a moment.".
Definition MSG_UNAVAILABLE : jsstr := lit "Gemini service temporarily unavailable.".
Definition MSG_ANALYSIS_FAILED : jsstr := lit "Analysis failed.".
Definition MSG_ANALYSIS_QUOTA : jsstr := lit "Analysis quota exceeded. Retrying later.".

(** [process.env.API_KEY] is a string or undefined. *)
Definition checkApiKey (apiKey : option jsstr) : Result unit :=
  match apiKey with
  | Some k => if truthy k then Returns tt else Throws (mkError MSG_KEY_MISSING)
  | None => Throws (mkError MSG_KEY_MISSING)
  end.

(** [blobToBase64]: the reader either ends with a data URL, of which the part
    after the first comma is taken, or fails. *)
Definition blobToBase64 (read : Outcome jsstr) : Outcome (option jsstr) :=
  match read with
  | Resolved result => Resolved (split 44 result !! 1%nat)
  | Rejected e => Rejected e
  end.

(** The [catch] block of [transcribeAudio]: three independent tests in
    sequence, each overwriting the message. *)
Definition transcribeErrorMessage (errString : jsstr) : jsstr :=
  let message := MSG_TRANSCRIPTION_FAILED in
  let message :=
    if includes errString (lit "401") || includes errString (lit "403")
    then MSG_UNAUTHORIZED else message in
  let message :=
    if includes errString (lit "429") then MSG_USAGE_LIMIT else message in
  let message :=
    if includes errString (lit "500") then MSG_UNAVAILABLE else message in
  message.

(** [transcribeAudio(audioBlob)]: the requests sent and the completion.
    [read] is the outcome of the file reader, [remote] the outcome of
    [generateContent] with the [text] of the response. *)
Definition transcribeAudio (apiKey : option jsstr)
    (read : Outcome jsstr) (remote : Outcome (option jsstr))
    (audioBlob : Blob) : list Request * Result jsstr :=
  match checkApiKey apiKey with
  | Throws e => ([], Throws e)
  | Returns _ =>
      match blobToBase64 read with
      | Rejected error =>
          ([], Throws (mkError (transcribeErrorMessage (e_string error))))
      | Resolved base64Audio =>
          let request :=
            TranscribeRequest MODEL
              (if truthy (type audioBlob) then type audioBlob
               else lit "audio/webm")
              base64Audio in
          match remote with
          | Resolved text =>
              ([request],
               Returns (match text with
                        | Some t => trim t
                        | None => []
                        end))
          | Rejected error =>
              ([request],
               Throws (mkError (transcribeErrorMessage (e_string error))))
          end
      end
  end.

Definition analyzeErrorMessage (errString : jsstr) : jsstr :=
  let message := MSG_ANALYSIS_FAILED in
  let message :=
    if includes errString (lit "429") then MSG_ANALYSIS_QUOTA else message in
  message.

(** [analyzeTranscript(fullTranscript)] *)
Definition analyzeTranscript (apiKey : option jsstr)
    (remote : Outcome (option jsstr))
    (fullTranscript : jsstr) : list Request * Result jsstr :=
  match checkApiKey apiKey with
  | Throws e => ([], Throws e)
  | Returns _ =>
      if negb (truthy (trim fullTranscript)) then ([], Returns [])
      else
        let request :=
          AnalyzeRequest MODEL
            (lit "Current Transcript:" ++ [LF; LF] ++ fullTranscript) in
        match remote with
        | Resolved text =>
            ([request], Returns (match text with Some t => t | None => [] end))
        | Rejected error =>
            ([request],
             Throws (mkError (analyzeErrorMessage (e_string error))))
        end
  end.

End Service.

(** ** src/types.ts *)

Inductive RecordingState : Type := IDLE | RECORDING | PROCESSING | PAUSED.

(** ** src/hooks/useAudioRecorder.ts *)

Module Recorder.

(** The [type] argument of [onError]. *)
Inductive NoticeType : Type := error | info.

Inductive TrackKind : Type := AudioKind | VideoKind.

Record Track := { kind : TrackKind; track_id : nat }.

Abbreviation MediaStream := (list Track).

Definition is_audio (t : Track) : bool :=
  match kind t with AudioKind => true | VideoKind => false end.

Definition getAudioTracks (stream : MediaStream) : list Track :=
  List.filter is_audio stream.

(** What the browser answers to one run of the hook's code.  [recordedData r]
    lists the sizes of the [dataavailable] payloads recorder [r] delivers when
    it is stopped. *)
Record Platform := {
  displaySupported : bool;
  displayMedia : Outcome MediaStream;
  userMedia : Outcome MediaStream;
  audioContextThrows : option Thrown;
  mediaRecorderThrows : option Thrown;
  opusSupported : bool;
  mp4Supported : bool;
  recordedData : nat → list N
}.

(** The object literal the caller passes to [useAudioRecorder].  The two
    callbacks are represented by the effects [OnError] and [OnAudioChunk];
    [enableSystemAudio] is the extra property the App puts in the object. *)
Record Props := {
  chunkInterval : option Z;
  enableSystemAudio : bool
}.

(** The destructuring default [chunkInterval = 5000]. *)
Definition interval (props : Props) : Z :=
  match chunkInterval props with
  | Some ms => ms
  | None => 5000
  end.

(** Observable actions of the hook, in the order they happen. *)
Inductive Effect : Type :=
| GetDisplayMedia
| GetUserMedia
| OnError (message : jsstr) (type : NoticeType)
| ConsoleWarn (message : jsstr)
| ConsoleError (message : jsstr)
| SetOnEnded (t : Track)
| TrackStop (t : Track)
| NewAudioContext (ctx : nat)
| Connect (ctx : nat) (source : MediaStream)
| ContextClose (ctx : nat)
| RecorderStart (r : nat) (at_ms : Z)
| RecorderStop (r : nat) (from_ms to_ms : Z)
| OnAudioChunk (blob : Blob).

Record MediaRecorder := {
  mimeType : jsstr;
  recording : bool;
  startedAt : Z
}.

(** A pending [setTimeout] callback of [recordSegment] with the recorder and
    the audio context its closure holds. *)
Record Timer := { due : Z; timer_recorder : nat; timer_context : nat }.

(** The refs and the state of the hook, the objects they point to, the clock
    and the pending timers. *)
Record State := {
  recordingState : RecordingState;
  mediaRecorderRef : option nat;
  audioContextRef : option nat;
  streamTracksRef : list Track;
  isRecordingRef : bool;
  now : Z;
  recorders : list MediaRecorder;
  contexts : list bool;
  timers : list Timer;
  log : list Effect
}.

Definition init : State :=
  {| recordingState := IDLE; mediaRecorderRef := None;
     audioContextRef := None; streamTracksRef := [];
     isRecordingRef := false; now := 0; recorders := []; contexts := [];
     timers := []; log := [] |}.

Definition setRecordingState (v : RecordingState) (s : State) : State :=
  {| recordingState := v; mediaRecorderRef := mediaRecorderRef s;
     audioContextRef := audioContextRef s;
     streamTracksRef := streamTracksRef s;
     isRecordingRef := isRecordingRef s; now := now s;
     recorders := recorders s; contexts := contexts s; timers := timers s;
     log := log s |}.

Definition set_mediaRecorderRef (v : option nat) (s : State) : State :=
  {| recordingState := recordingState s; mediaRecorderRef := v;
     audioContextRef := audioContextRef s;
     streamTracksRef := streamTracksRef s;
     isRecordingRef := isRecordingRef s; now := now s;
     recorders := recorders s; contexts := contexts s; timers := timers s;
     log := log s |}.

Definition set_audioContextRef (v : option nat) (s : State) : State :=
  {| recordingState := recordingState s;
     mediaRecorderRef := mediaRecorderRef s; audioContextRef := v;
     streamTracksRef := streamTracksRef s;
     isRecordingRef := isRecordingRef s; now := now s;
     recorders := recorders s; contexts := contexts s; timers := timers s;
     log := log s |}.

Definition set_streamTracksRef (v : list Track) (s : State) : State :=
  {| recordingState := recordingState s;
     mediaRecorderRef := mediaRecorderRef s;
     audioContextRef := audioContextRef s; streamTracksRef := v;
     isRecordingRef := isRecordingRef s; now := now s;
     recorders := recorders s; contexts := contexts s; timers := timers s;
     log := log s |}.

Definition set_isRecordingRef (v : bool) (s : State) : State :=
  {| recordingState := recordingState s;
     mediaRecorderRef := mediaRecorderRef s;
     audioContextRef := audioContextRef s;
     streamTracksRef := streamTracksRef s; isRecordingRef := v;
     now := now s; recorders := recorders s; contexts := contexts s;
     timers := timers s; log := log s |}.

Definition set_now (v : Z) (s : State) : State :=
  {| recordingState := recordingState s;
     mediaRecorderRef := mediaRecorderRef s;
     audioContextRef := audioContextRef s;
     streamTracksRef := streamTracksRef s;
     isRecordingRef := isRecordingRef s; now := v;
     recorders := recorders s; contexts := contexts s; timers := timers s;
     log := log s |}.

Definition set_recorders (v : list MediaRecorder) (s : State) : State :=
  {| recordingState := recordingState s;
     mediaRecorderRef := mediaRecorderRef s;
     audioContextRef := audioContextRef s;
     streamTracksRef := streamTracksRef s;
     isRecordingRef := isRecordingRef s; now := now s; recorders := v;
     contexts := contexts s; timers := timers s; log := log s |}.

Definition set_contexts (v : list bool) (s : State) : State :=
  {| recordingState := recordingState s;
     mediaRecorderRef := mediaRecorderRef s;
     audioContextRef := audioContextRef s;
     streamTracksRef := streamTracksRef s;
     isRecordingRef := isRecordingRef s; now := now s;
     recorders := recorders s; contexts := v; timers := timers s;
     log := log s |}.

Definition set_timers (v : list Timer) (s : State) : State :=
  {| recordingState := recordingState s;
     mediaRecorderRef := mediaRecorderRef s;
     audioContextRef := audioContextRef s;
     streamTracksRef := streamTracksRef s;
     isRecordingRef := isRecordingRef s; now := now s;
     recorders := recorders s; contexts := contexts s; timers := v;
     log := log s |}.

Definition emit (e : Effect) (s : State) : State :=
  {| recordingState := recordingState s;
     mediaRecorderRef := mediaRecorderRef s;
     audioContextRef := audioContextRef s;
     streamTracksRef := streamTracksRef s;
     isRecordingRef := isRecordingRef s; now := now s;
     recorders := recorders s; contexts := contexts s; timers := timers s;
     log := log s ++ [e] |}.

(** The updates compute once the state they are applied to is known. *)
Global Arguments setRecordingState v !s /.
Global Arguments set_mediaRecorderRef v !s /.
Global Arguments set_audioContextRef v !s /.
Global Arguments set_streamTracksRef v !s /.
Global Arguments set_isRecordingRef v !s /.
Global Arguments set_now v !s /.
Global Arguments set_recorders v !s /.
Global Arguments set_contexts v !s /.
Global Arguments set_timers v !s /.
Global Arguments emit e !s /.

Definition MSG_BLOCKED : jsstr :=
  lit "System audio blocked (browser restriction). Falling back to Microphone. Open in new tab to capture system audio.".
Definition MSG_NO_SYSTEM_AUDIO : jsstr :=
  lit "No system audio detected. Please ensure 'Share Audio' is checked in the browser dialog. Recording Microphone only.".
Definition MSG_NO_SOURCE : jsstr :=
  lit "Could not access Microphone or System Audio. Please check permissions.".
Definition MSG_START_FAILED : jsstr := lit "Failed to start recording: ".
Definition WARN_CANCELLED : jsstr := lit "User cancelled system audio selection.".
Definition WARN_DISPLAY_FAILED : jsstr := lit "getDisplayMedia failed:".
Definition WARN_MIC_FAILED : jsstr := lit "Microphone access denied or failed.".
Definition LOG_START_ERROR : jsstr := lit "Error starting recording:".

(** [recorder.stop()] on a recorder in state 'recording', followed by its
    [ondataavailable] and [onstop] handlers: the non-empty payloads are
    collected into one blob, which is handed to [onAudioChunk] when its size
    is positive. *)
Definition recorder_stop (p : Platform) (r : nat) (s : State) : State :=
  match recorders s !! r with
  | None => s
  | Some mr =>
      let s :=
        set_recorders
          (<[r := {| mimeType := mimeType mr; recording := false;
                     startedAt := startedAt mr |}]> (recorders s)) s in
      let s := emit (RecorderStop r (startedAt mr) (now s)) s in
      let chunks := List.filter (λ sz, (0 <? sz)%N) (recordedData p r) in
      let blob := {| size := foldr N.add 0%N chunks; type := mimeType mr |} in
      if (0 <? size blob)%N then emit (OnAudioChunk blob) s else s
  end.

(** [stopRecording].  The context is marked closed at once; the hook reads
    the state of a context only in [recordSegment], behind the recording
    flag this function has just cleared. *)
Definition stopRecording (p : Platform) (s : State) : State :=
  let s := set_isRecordingRef false s in
  let s :=
    match mediaRecorderRef s with
    | Some r =>
        match recorders s !! r with
        | Some mr => if recording mr then recorder_stop p r s else s
        | None => s
        end
    | None => s
    end in
  let s := set_mediaRecorderRef None s in
  let s := foldl (λ s t, emit (TrackStop t) s) s (streamTracksRef s) in
  let s := set_streamTracksRef [] s in
  let s :=
    match audioContextRef s with
    | Some c => emit (ContextClose c) (set_contexts (<[c := true]> (contexts s)) s)
    | None => s
    end in
  let s := set_audioContextRef None s in
  setRecordingState IDLE s.

(** [recordSegment], closed over the audio context [ctx] of its session.
    Returns the exception of the [MediaRecorder] constructor, if any. *)
Definition recordSegment (p : Platform) (props : Props) (ctx : nat)
    (s : State) : State * option Thrown :=
  if negb (isRecordingRef s) then (s, None)
  else if default true (contexts s !! ctx) then (s, None)
  else
    let mimeType :=
      if opusSupported p then lit "audio/webm;codecs=opus"
      else if mp4Supported p then lit "audio/mp4"
      else lit "audio/webm" in
    match mediaRecorderThrows p with
    | Some err => (s, Some err)
    | None =>
        let r := List.length (recorders s) in
        let s :=
          set_recorders
            (recorders s ++
             [{| mimeType := mimeType; recording := true;
                 startedAt := now s |}]) s in
        let s := emit (RecorderStart r (now s)) s in
        let s :=
          set_timers
            (timers s ++
             [{| due := now s + Z.max 0 (interval props);
                 timer_recorder := r; timer_context := ctx |}]) s in
        (set_mediaRecorderRef (Some r) s, None)
    end.

(** The oldest pending timeout fires at its due time: its recorder, if still
    recording, is stopped, and the next segment is started in the same turn
    when the recording flag is set.  An exception of [recordSegment] in a
    timer callback is not caught by anything. *)
Definition timer_fires (p : Platform) (props : Props) (s : State) : State :=
  match timers s with
  | [] => s
  | t :: rest =>
      let s := set_timers rest s in
      let s := set_now (Z.max (now s) (due t)) s in
      match recorders s !! timer_recorder t with
      | Some mr =>
          if recording mr then
            let s := recorder_stop p (timer_recorder t) s in
            if isRecordingRef s
            then fst (recordSegment p props (timer_context t) s)
            else s
          else s
      | None => s
      end
  end.

(** The outer [catch] of [startChunkLoop]. *)
Definition start_failed (p : Platform) (err : Thrown) (s : State) : State :=
  let s := emit (ConsoleError LOG_START_ERROR) s in
  let s := emit (OnError (MSG_START_FAILED ++ e_message err) error) s in
  stopRecording p s.

(** [startChunkLoop], exported as [startRecording].  The two awaited
    promises settle as the platform [p] says, and the function runs from its
    first line to its last without another handler in between. *)
Definition startChunkLoop (p : Platform) (props : Props) (s : State) : State :=
  if isRecordingRef s then s
  else
    let s := set_isRecordingRef true s in
    let s := setRecordingState RECORDING s in
    (* 1. system audio *)
    let '(screenStream, s) :=
      if displaySupported p then
        let s := emit GetDisplayMedia s in
        match displayMedia p with
        | Resolved stream => (Some stream, s)
        | Rejected err =>
            let errorMessage := e_string err in
            (None,
             if includes errorMessage (lit "permissions policy")
                || includes errorMessage (lit "denied")
             then
               if includes errorMessage (lit "permissions policy")
               then emit (OnError MSG_BLOCKED info) s
               else emit (ConsoleWarn WARN_CANCELLED) s
             else emit (ConsoleWarn WARN_DISPLAY_FAILED) s)
        end
      else (None, s) in
    let '(screenStream, usingScreenAudio, s) :=
      match screenStream with
      | Some stream =>
          match getAudioTracks stream with
          | screenAudioTrack :: _ =>
              (Some stream, true, emit (SetOnEnded screenAudioTrack) s)
          | [] =>
              let s := emit (OnError MSG_NO_SYSTEM_AUDIO info) s in
              (None, false, foldl (λ s t, emit (TrackStop t) s) s stream)
          end
      | None => (None, false, s)
      end in
    (* 2. microphone *)
    let s := emit GetUserMedia s in
    let '(micStream, s) :=
      match userMedia p with
      | Resolved stream => (Some stream, s)
      | Rejected micErr => (None, emit (ConsoleWarn WARN_MIC_FAILED) s)
      end in
    if negb usingScreenAudio && negb (present micStream) then
      let s := emit (OnError MSG_NO_SOURCE error) s in
      stopRecording p s
    else
      (* 3. mixing *)
      match audioContextThrows p with
      | Some err => start_failed p err s
      | None =>
          let audioContext := List.length (contexts s) in
          let s := set_contexts (contexts s ++ [false]) s in
          let s := emit (NewAudioContext audioContext) s in
          let s := set_audioContextRef (Some audioContext) s in
          let s :=
            match screenStream with
            | Some stream =>
                if usingScreenAudio then emit (Connect audioContext stream) s
                else s
            | None => s
            end in
          let s :=
            match micStream with
            | Some stream => emit (Connect audioContext stream) s
            | None => s
            end in
          let s :=
            set_streamTracksRef
              (default [] screenStream ++ default [] micStream) s in
          (* 4. recording *)
          match recordSegment p props audioContext s with
          | (s, None) => s
          | (s, Some err) => start_failed p err s
          end
      end.

(** The [onended] handler installed on the shared audio track. *)
Definition screenAudioTrack_onended (p : Platform) (s : State) : State :=
  stopRecording p s.

(** The clips recorded so far, as the intervals between the start and the stop
    of each recorder. *)
Definition segments (s : State) : list (Z * Z) :=
  omap (λ e, match e with
             | RecorderStop _ a b => Some (a, b)
             | _ => None
             end) (log s).

(** The [onError] calls made so far. *)
Definition notices (s : State) : list (jsstr * NoticeType) :=
  omap (λ e, match e with
             | OnError m t => Some (m, t)
             | _ => None
             end) (log s).

(** An effect other than a call of [onError]. *)
Definition silent (e : Effect) : bool :=
  match e with
  | OnError _ _ => false
  | _ => true
  end.

(** From [s] to [s'] the hook only added to its log, and made no call of
    [onError]. *)
Definition quietly (s s' : State) : Prop :=
  ∃ new, log s' = log s ++ new ∧ Forall (λ e, silent e = true) new.

(** What the hook did between two of its states. *)
Definition since (s s' : State) : list Effect :=
  drop (List.length (log s)) (log s').

(** The streams wired into the mix. *)
Definition connected (l : list Effect) : list MediaStream :=
  omap (λ e, match e with
             | Connect _ source => Some source
             | _ => None
             end) l.

Definition notices_in (l : list Effect) : list (jsstr * NoticeType) :=
  omap (λ e, match e with
             | OnError m t => Some (m, t)
             | _ => None
             end) l.

(** The clips handed to [onAudioChunk]. *)
Definition chunks_in (l : list Effect) : list Blob :=
  omap (λ e, match e with
             | OnAudioChunk blob => Some blob
             | _ => None
             end) l.

(** The screen share delivers an audio track. *)
Definition system_audio_available (p : Platform) : bool :=
  displaySupported p &&
  match displayMedia p with
  | Resolved stream =>
      match getAudioTracks stream with [] => false | _ :: _ => true end
  | Rejected _ => false
  end.

(** The chunk loop is running: the flag is set, the recorder the ref points
    to records since [a], the one pending timeout is the one of that
    recorder, due one interval after [a], and the session's audio context is
    open. *)
Definition chunking (props : Props) (s : State) (a : Z) : Prop :=
  isRecordingRef s = true ∧
  now s ≤ a + interval props ∧
  ∃ r c mime,
    mediaRecorderRef s = Some r ∧
    recorders s !! r =
      Some {| mimeType := mime; recording := true; startedAt := a |} ∧
    timers s =
      [{| due := a + interval props; timer_recorder := r;
          timer_context := c |}] ∧
    contexts s !! c = Some false.

(** A call of [startChunkLoop] suspended at one of its two [await]s, with
    the local variables its continuation reads later. *)
Inductive Suspended : Type :=
| AwaitDisplayMedia
| AwaitUserMedia (screenStream : option MediaStream) (usingScreenAudio : bool).

(** [startChunkLoop] from its first line to the first [await] it reaches:
    the one of [getDisplayMedia] or, where the browser has none, the one of
    [getUserMedia]. *)
Definition start_call (p : Platform) (s : State) : State * option Suspended :=
  if isRecordingRef s then (s, None)
  else
    let s := set_isRecordingRef true s in
    let s := setRecordingState RECORDING s in
    if displaySupported p
    then (emit GetDisplayMedia s, Some AwaitDisplayMedia)
    else (emit GetUserMedia s, Some (AwaitUserMedia None false)).

(** [startChunkLoop] from the settling of [getDisplayMedia] to the [await]
    of [getUserMedia]. *)
Definition resume_display (p : Platform) (s : State) : State * Suspended :=
  let '(screenStream, s) :=
    match displayMedia p with
    | Resolved stream => (Some stream, s)
    | Rejected err =>
        let errorMessage := e_string err in
        (None,
         if includes errorMessage (lit "permissions policy")
            || includes errorMessage (lit "denied")
         then
           if includes errorMessage (lit "permissions policy")
           then emit (OnError MSG_BLOCKED info) s
           else emit (ConsoleWarn WARN_CANCELLED) s
         else emit (ConsoleWarn WARN_DISPLAY_FAILED) s)
    end in
  let '(screenStream, usingScreenAudio, s) :=
    match screenStream with
    | Some stream =>
        match getAudioTracks stream with
        | screenAudioTrack :: _ =>
            (Some stream, true, emit (SetOnEnded screenAudioTrack) s)
        | [] =>
            let s := emit (OnError MSG_NO_SYSTEM_AUDIO info) s in
            (None, false, foldl (λ s t, emit (TrackStop t) s) s stream)
        end
    | None => (None, false, s)
    end in
  (emit GetUserMedia s, AwaitUserMedia screenStream usingScreenAudio).

(** [startChunkLoop] from the settling of [getUserMedia] to its end.  The
    recording flag is not read again before the refs are written; only
    [recordSegment] tests it. *)
Definition resume_mic (p : Platform) (props : Props)
    (screenStream : option MediaStream) (usingScreenAudio : bool)
    (s : State) : State :=
  let '(micStream, s) :=
    match userMedia p with
    | Resolved stream => (Some stream, s)
    | Rejected micErr => (None, emit (ConsoleWarn WARN_MIC_FAILED) s)
    end in
  if negb usingScreenAudio && negb (present micStream) then
    let s := emit (OnError MSG_NO_SOURCE error) s in
    stopRecording p s
  else
    match audioContextThrows p with
    | Some err => start_failed p err s
    | None =>
        let audioContext := List.length (contexts s) in
        let s := set_contexts (contexts s ++ [false]) s in
        let s := emit (NewAudioContext audioContext) s in
        let s := set_audioContextRef (Some audioContext) s in
        let s :=
          match screenStream with
          | Some stream =>
              if usingScreenAudio then emit (Connect audioContext stream) s
              else s
          | None => s
          end in
        let s :=
          match micStream with
          | Some stream => emit (Connect audioContext stream) s
          | None => s
          end in
        let s :=
          set_streamTracksRef
            (default [] screenStream ++ default [] micStream) s in
        match recordSegment p props audioContext s with
        | (s, None) => s
        | (s, Some err) => start_failed p err s
        end
    end.

(** A suspended call goes on when the promise it awaits settles, up to its
    next [await] or to its end. *)
Definition resume (p : Platform) (props : Props) (k : Suspended)
    (s : State) : State * option Suspended :=
  match k with
  | AwaitDisplayMedia =>
      let '(s, k) := resume_display p s in (s, Some k)
  | AwaitUserMedia screenStream usingScreenAudio =>
      (resume_mic p props screenStream usingScreenAudio s, None)
  end.

(** A call of [startChunkLoop] during whose awaits no other handler runs. *)
Definition uninterrupted (p : Platform) (props : Props) (s : State) : State :=
  match start_call p s with
  | (s, None) => s
  | (s, Some k) =>
      match resume p props k s with
      | (s, None) => s
      | (s, Some k) => (resume p props k s).1
      end
  end.

(** The mounted hook: its state and the calls of [startChunkLoop] that are
    suspended at an [await]. *)
Record Hook := { current : State; suspended : list Suspended }.

Definition mounted : Hook := {| current := init; suspended := [] |}.

(** What can happen to a mounted hook, one turn of the event loop each:
    [startRecording] is called and runs to its first [await]; the promise
    the [i]-th suspended call awaits settles and the call goes on; and
    [stopRecording], a chunk timeout and the end of the screen share, each
    of which may fall between the two. *)
Inductive Op : Type :=
| Start (p : Platform)
| Settle (i : nat) (p : Platform)
| Stop (p : Platform)
| Tick (p : Platform)
| Ended (p : Platform).

Definition run_op (props : Props) (op : Op) (h : Hook) : Hook :=
  match op with
  | Start p =>
      let '(s, k) := start_call p (current h) in
      {| current := s;
         suspended :=
           suspended h ++ match k with Some k => [k] | None => [] end |}
  | Settle i p =>
      match suspended h !! i with
      | None => h
      | Some k =>
          let '(s, k') := resume p props k (current h) in
          {| current := s;
             suspended :=
               match k' with
               | Some k' => <[i := k']> (suspended h)
               | None => delete i (suspended h)
               end |}
      end
  | Stop p =>
      {| current := stopRecording p (current h); suspended := suspended h |}
  | Tick p =>
      {| current := timer_fires p props (current h);
         suspended := suspended h |}
  | Ended p =>
      {| current := screenAudioTrack_onended p (current h);
         suspended := suspended h |}
  end.

(** The states of the hook, under every interleaving of its handlers. *)
Inductive reachable (props : Props) : Hook → Prop :=
| reach_init : reachable props mounted
| reach_op op h : reachable props h → reachable props (run_op props op h).

(** What holds of the hook whatever the interleaving: the React state
    mirrors the recording flag; while the flag is clear no recorder is
    referred to; the audio context referred to is open; and every recorder
    that records has its timeout pending, due one interval after it was
    started. *)
Definition hook_inv (props : Props) (s : State) : Prop :=
  recordingState s = (if isRecordingRef s then RECORDING else IDLE) ∧
  (isRecordingRef s = false → mediaRecorderRef s = None) ∧
  (∀ c, audioContextRef s = Some c → contexts s !! c = Some false) ∧
  (∀ r mr, recorders s !! r = Some mr → recording mr = true →
           ∃ c, {| due := startedAt mr + Z.max 0 (interval props);
                   timer_recorder := r; timer_context := c |} ∈ timers s).

(** The tracks a run of [startChunkLoop] obtains from the browser. *)
Definition acquired (p : Platform) : list Track :=
  (if displaySupported p
   then match displayMedia p with
        | Resolved stream => stream
        | Rejected _ => []
        end
   else []) ++
  match userMedia p with
  | Resolved stream => stream
  | Rejected _ => []
  end.

(** The clips completed. *)
Definition segments_in (l : list Effect) : list (Z * Z) :=
  omap (λ e, match e with
             | RecorderStop _ a b => Some (a, b)
             | _ => None
             end) l.

(** The recorder list after [stopRecording]: the recorder the ref points
    to, if it records, becomes inactive. *)
Definition halted (s : State) : list MediaRecorder :=
  match mediaRecorderRef s with
  | Some r =>
      match recorders s !! r with
      | Some mr =>
          if recording mr
          then <[r := {| mimeType := mimeType mr; recording := false;
                         startedAt := startedAt mr |}]> (recorders s)
          else recorders s
      | None => recorders s
      end
  | None => recorders s
  end.

(** The tracks stopped. *)
Definition stopped_in (l : list Effect) : list Track :=
  omap (λ e, match e with
             | TrackStop t => Some t
             | _ => None
             end) l.

(** The MIME types [recordSegment] chooses from. *)
Definition MIME_TYPES : list jsstr :=
  [lit "audio/webm;codecs=opus"; lit "audio/mp4"; lit "audio/webm"].

(** Every recorder was created with one of the three types, and every clip
    handed to [onAudioChunk] has a positive size and one of the three
    types. *)
Definition mime_inv (s : State) : Prop :=
  Forall (λ mr, mimeType mr ∈ MIME_TYPES) (recorders s) ∧
  Forall (λ b, (0 < size b)%N ∧ type b ∈ MIME_TYPES) (chunks_in (log s)).

End Recorder.

(** ** src/App.tsx *)

Module App.

Record TranscriptChunk := {
  id : jsstr;
  text : jsstr;
  timestamp : Z;
  isFinal : bool
}.

Inductive ToastType : Type := toast_error | toast_success | toast_info.

Definition CHUNK_INTERVAL : Z := 8000.
Definition ANALYSIS_TRIGGER_LENGTH : Z := 150.

(** The key of the one preference kept in [localStorage]. *)
Definition STORAGE_KEY : jsstr := lit "enableSystemAudio".

(** The component's state variables, the browser's [localStorage], the state
    of the recorder hook, the clips whose transcription has not settled, the
    transcripts whose analysis has not settled, and the requests sent to the
    remote service so far. *)
Record State := {
  transcriptChunks : list TranscriptChunk;
  fullTranscript : jsstr;
  analysisResult : jsstr;
  isAnalyzing : bool;
  lastAnalyzedLength : Z;
  enableSystemAudio : bool;
  toast : option (jsstr * ToastType);
  localStorage : gmap jsstr jsstr;
  recorder : Recorder.State;
  transcribing : list Blob;
  analyzing : list jsstr;
  requests : list Service.Request
}.

Definition setTranscriptChunks (v : list TranscriptChunk) (st : State) : State :=
  {| transcriptChunks := v; fullTranscript := fullTranscript st;
     analysisResult := analysisResult st; isAnalyzing := isAnalyzing st;
     lastAnalyzedLength := lastAnalyzedLength st;
     enableSystemAudio := enableSystemAudio st; toast := toast st;
     localStorage := localStorage st; recorder := recorder st;
     transcribing := transcribing st; analyzing := analyzing st;
     requests := requests st |}.

Definition setFullTranscript (v : jsstr) (st : State) : State :=
  {| transcriptChunks := transcriptChunks st; fullTranscript := v;
     analysisResult := analysisResult st; isAnalyzing := isAnalyzing st;
     lastAnalyzedLength := lastAnalyzedLength st;
     enableSystemAudio := enableSystemAudio st; toast := toast st;
     localStorage := localStorage st; recorder := recorder st;
     transcribing := transcribing st; analyzing := analyzing st;
     requests := requests st |}.

Definition setAnalysisResult (v : jsstr) (st : State) : State :=
  {| transcriptChunks := transcriptChunks st;
     fullTranscript := fullTranscript st; analysisResult := v;
     isAnalyzing := isAnalyzing st;
     lastAnalyzedLength := lastAnalyzedLength st;
     enableSystemAudio := enableSystemAudio st; toast := toast st;
     localStorage := localStorage st; recorder := recorder st;
     transcribing := transcribing st; analyzing := analyzing st;
     requests := requests st |}.

Definition setIsAnalyzing (v : bool) (st : State) : State :=
  {| transcriptChunks := transcriptChunks st;
     fullTranscript := fullTranscript st;
     analysisResult := analysisResult st; isAnalyzing := v;
     lastAnalyzedLength := lastAnalyzedLength st;
     enableSystemAudio := enableSystemAudio st; toast := toast st;
     localStorage := localStorage st; recorder := recorder st;
     transcribing := transcribing st; analyzing := analyzing st;
     requests := requests st |}.

Definition setLastAnalyzedLength (v : Z) (st : State) : State :=
  {| transcriptChunks := transcriptChunks st;
     fullTranscript := fullTranscript st;
     analysisResult := analysisResult st; isAnalyzing := isAnalyzing st;
     lastAnalyzedLength := v; enableSystemAudio := enableSystemAudio st;
     toast := toast st; localStorage := localStorage st;
     recorder := recorder st; transcribing := transcribing st;
     analyzing := analyzing st; requests := requests st |}.

Definition setEnableSystemAudio (v : bool) (st : State) : State :=
  {| transcriptChunks := transcriptChunks st;
     fullTranscript := fullTranscript st;
     analysisResult := analysisResult st; isAnalyzing := isAnalyzing st;
     lastAnalyzedLength := lastAnalyzedLength st; enableSystemAudio := v;
     toast := toast st; localStorage := localStorage st;
     recorder := recorder st; transcribing := transcribing st;
     analyzing := analyzing st; requests := requests st |}.

Definition setToast (v : option (jsstr * ToastType)) (st : State) : State :=
  {| transcriptChunks := transcriptChunks st;
     fullTranscript := fullTranscript st;
     analysisResult := analysisResult st; isAnalyzing := isAnalyzing st;
     lastAnalyzedLength := lastAnalyzedLength st;
     enableSystemAudio := enableSystemAudio st; toast := v;
     localStorage := localStorage st; recorder := recorder st;
     transcribing := transcribing st; analyzing := analyzing st;
     requests := requests st |}.

Definition set_localStorage (v : gmap jsstr jsstr) (st : State) : State :=
  {| transcriptChunks := transcriptChunks st;
     fullTranscript := fullTranscript st;
     analysisResult := analysisResult st; isAnalyzing := isAnalyzing st;
     lastAnalyzedLength := lastAnalyzedLength st;
     enableSystemAudio := enableSystemAudio st; toast := toast st;
     localStorage := v; recorder := recorder st;
     transcribing := transcribing st; analyzing := analyzing st;
     requests := requests st |}.

Definition set_recorder (v : Recorder.State) (st : State) : State :=
  {| transcriptChunks := transcriptChunks st;
     fullTranscript := fullTranscript st;
     analysisResult := analysisResult st; isAnalyzing := isAnalyzing st;
     lastAnalyzedLength := lastAnalyzedLength st;
     enableSystemAudio := enableSystemAudio st; toast := toast st;
     localStorage := localStorage st; recorder := v;
     transcribing := transcribing st; analyzing := analyzing st;
     requests := requests st |}.

Definition set_transcribing (v : list Blob) (st : State) : State :=
  {| transcriptChunks := transcriptChunks st;
     fullTranscript := fullTranscript st;
     analysisResult := analysisResult st; isAnalyzing := isAnalyzing st;
     lastAnalyzedLength := lastAnalyzedLength st;
     enableSystemAudio := enableSystemAudio st; toast := toast st;
     localStorage := localStorage st; recorder := recorder st;
     transcribing := v; analyzing := analyzing st;
     requests := requests st |}.

Definition set_analyzing (v : list jsstr) (st : State) : State :=
  {| transcriptChunks := transcriptChunks st;
     fullTranscript := fullTranscript st;
     analysisResult := analysisResult st; isAnalyzing := isAnalyzing st;
     lastAnalyzedLength := lastAnalyzedLength st;
     enableSystemAudio := enableSystemAudio st; toast := toast st;
     localStorage := localStorage st; recorder := recorder st;
     transcribing := transcribing st; analyzing := v;
     requests := requests st |}.

Definition set_requests (v : list Service.Request) (st : State) : State :=
  {| transcriptChunks := transcriptChunks st;
     fullTranscript := fullTranscript st;
     analysisResult := analysisResult st; isAnalyzing := isAnalyzing st;
     lastAnalyzedLength := lastAnalyzedLength st;
     enableSystemAudio := enableSystemAudio st; toast := toast st;
     localStorage := localStorage st; recorder := recorder st;
     transcribing := transcribing st; analyzing := analyzing st;
     requests := v |}.

(** The state at mount; the preference is read from [localStorage]. *)
Definition init (storage : gmap jsstr jsstr) : State :=
  {| transcriptChunks := []; fullTranscript := []; analysisResult := [];
     isAnalyzing := false; lastAnalyzedLength := 0;
     enableSystemAudio :=
       match storage !! STORAGE_KEY with
       | Some saved => bool_decide (saved = lit "true")
       | None => true
       end;
     toast := None; localStorage := storage; recorder := Recorder.init;
     transcribing := []; analyzing := []; requests := [] |}.

Definition showToast (message : jsstr) (type : ToastType) (st : State) : State :=
  setToast (Some (message, type)) st.

Definition toast_of (t : Recorder.NoticeType) : ToastType :=
  match t with
  | Recorder.error => toast_error
  | Recorder.info => toast_info
  end.

(** [String(b)] for a boolean. *)
Definition string_of_bool (b : bool) : jsstr :=
  if b then lit "true" else lit "false".

(** The [onError] callback given to the hook. *)
Definition onError (msg : jsstr) (type : option Recorder.NoticeType)
    (st : State) : State :=
  let st :=
    showToast msg
      (match type with Some t => toast_of t | None => toast_error end) st in
  if includes msg (lit "System audio blocked") then
    let st := setEnableSystemAudio false st in
    set_localStorage (<[STORAGE_KEY := lit "false"]> (localStorage st)) st
  else st.

(** [processAudioChunk], run from the call of [transcribeAudio] to the end.
    [seen] is the [transcriptChunks] of the render whose closure is running,
    [date1] and [date2] are the two readings of [Date.now()]. *)
Definition processAudioChunk (apiKey : option jsstr)
    (read : Outcome jsstr) (remote : Outcome (option jsstr))
    (date1 date2 : Z) (seen : list TranscriptChunk) (blob : Blob)
    (st : State) : State :=
  let '(sent, completion) := Service.transcribeAudio apiKey read remote blob in
  let st := set_requests (requests st ++ sent) st in
  match completion with
  | Returns text =>
      if negb (truthy text) then st
      else
        let newChunk :=
          {| id := toString date1; text := text; timestamp := date2;
             isFinal := true |} in
        let st := setTranscriptChunks (transcriptChunks st ++ [newChunk]) st in
        setFullTranscript (fullTranscript st ++ [LF] ++ text) st
  | Throws error =>
      if bool_decide (List.length seen = 0%nat)
         || includes (e_string error) (lit "API Key")
      then showToast (e_message error) toast_error st
      else st
  end.

(** [handleAudioChunk]: the clip is handed to [processAudioChunk], whose
    transcription is then in flight. *)
Definition handleAudioChunk (blob : Blob) (st : State) : State :=
  set_transcribing (transcribing st ++ [blob]) st.

(** The transcription of the [k]-th clip in flight settles.  The callback was
    memoised at mount with an empty dependency list, so the closure that runs
    is the one of the first render, where [transcriptChunks] is empty. *)
Definition transcription_settles (apiKey : option jsstr) (k : nat)
    (read : Outcome jsstr) (remote : Outcome (option jsstr))
    (date1 date2 : Z) (st : State) : State :=
  match transcribing st !! k with
  | None => st
  | Some blob =>
      processAudioChunk apiKey read remote date1 date2 [] blob
        (set_transcribing (delete k (transcribing st)) st)
  end.

(** The props object of the [useAudioRecorder] call. *)
Definition recorderProps (st : State) : Recorder.Props :=
  {| Recorder.chunkInterval := Some CHUNK_INTERVAL;
     Recorder.enableSystemAudio := enableSystemAudio st |}.

(** A callback the hook invoked reaches the component. *)
Definition deliver (e : Recorder.Effect) (st : State) : State :=
  match e with
  | Recorder.OnError message type => onError message (Some type) st
  | Recorder.OnAudioChunk blob => handleAudioChunk blob st
  | _ => st
  end.

(** Run an operation of the hook and deliver the callbacks it made. *)
Definition with_recorder (f : Recorder.State → Recorder.State)
    (st : State) : State :=
  let before := recorder st in
  let after := f before in
  foldl (λ st e, deliver e st) (set_recorder after st)
    (drop (List.length (Recorder.log before)) (Recorder.log after)).

(** [triggerAnalysis] up to the call of [analyzeTranscript]. *)
Definition triggerAnalysis (st : State) : State :=
  if isAnalyzing st || negb (truthy (trim (fullTranscript st))) then st
  else
    let st := setIsAnalyzing true st in
    let st := setLastAnalyzedLength (len (fullTranscript st)) st in
    set_analyzing (analyzing st ++ [fullTranscript st]) st.

(** [triggerAnalysis] from the settling of [analyzeTranscript] on. *)
Definition analysis_settles (apiKey : option jsstr)
    (remote : Outcome (option jsstr)) (st : State) : State :=
  match analyzing st with
  | [] => st
  | transcript :: rest =>
      let st := set_analyzing rest st in
      let '(sent, completion) :=
        Service.analyzeTranscript apiKey remote transcript in
      let st := set_requests (requests st ++ sent) st in
      let st :=
        match completion with
        | Returns result => setAnalysisResult result st
        | Throws error => showToast (e_message error) toast_error st
        end in
      setIsAnalyzing false st
  end.

(** The effect that watches the transcript. *)
Definition analysis_effect (st : State) : State :=
  let currentLength := len (fullTranscript st) in
  if (ANALYSIS_TRIGGER_LENGTH <? currentLength - lastAnalyzedLength st)
     && negb (isAnalyzing st)
  then triggerAnalysis st
  else st.

Definition is_recording (st : State) : bool :=
  match Recorder.recordingState (recorder st) with
  | RECORDING => true
  | _ => false
  end.

Definition handleToggleRecording (p : Recorder.Platform) (st : State) : State :=
  if is_recording st then
    let st := with_recorder (Recorder.stopRecording p) st in
    triggerAnalysis st
  else
    with_recorder (Recorder.startChunkLoop p (recorderProps st)) st.

Definition handleClear (p : Recorder.Platform) (st : State) : State :=
  let st :=
    if is_recording st then with_recorder (Recorder.stopRecording p) st
    else st in
  let st := setTranscriptChunks [] st in
  let st := setFullTranscript [] st in
  let st := setAnalysisResult [] st in
  let st := setLastAnalyzedLength 0 st in
  showToast (lit "Transcript cleared.") toast_info st.

Definition toggleAudioSource (st : State) : State :=
  let newVal := negb (enableSystemAudio st) in
  let st :=
    set_localStorage
      (<[STORAGE_KEY := string_of_bool newVal]> (localStorage st)) st in
  let st :=
    showToast
      (if newVal then lit "Mode: System Audio + Mic"
       else lit "Mode: Microphone Only") toast_info st in
  setEnableSystemAudio newVal st.

(** What can happen to the mounted component. *)
Inductive Event : Type :=
| ClickRecord (p : Recorder.Platform)
| ClickClear (p : Recorder.Platform)
| ClickToggleSource
| ClickAnalyze
| TimerFires (p : Recorder.Platform)
| TrackEnded (p : Recorder.Platform)
| TranscriptionSettles (k : nat) (read : Outcome jsstr)
    (remote : Outcome (option jsstr)) (date1 date2 : Z)
| AnalysisSettles (remote : Outcome (option jsstr)).

Definition handle (apiKey : option jsstr) (e : Event) (st : State) : State :=
  match e with
  | ClickRecord p => handleToggleRecording p st
  | ClickClear p => handleClear p st
  | ClickToggleSource => toggleAudioSource st
  | ClickAnalyze => triggerAnalysis st
  | TimerFires p =>
      with_recorder (Recorder.timer_fires p (recorderProps st)) st
  | TrackEnded p =>
      with_recorder (Recorder.screenAudioTrack_onended p) st
  | TranscriptionSettles k read remote date1 date2 =>
      transcription_settles apiKey k read remote date1 date2 st
  | AnalysisSettles remote => analysis_settles apiKey remote st
  end.

(** One event followed by the re-render, after which the effect runs. *)
Definition step (apiKey : option jsstr) (e : Event) (st : State) : State :=
  analysis_effect (handle apiKey e st).

(** The states of the component. *)
Inductive reachable (apiKey : option jsstr) : State → Prop :=
| reach_init storage : reachable apiKey (init storage)
| reach_step e st :
    reachable apiKey st → reachable apiKey (step apiKey e st).

(** The transcript the chunk list stands for. *)
Definition transcript_of (chunks : list TranscriptChunk) : jsstr :=
  List.concat ((λ c, LF :: text c) <$> chunks).

(** The state variables the recorder callbacks never touch. *)
Definition same_core (st st' : State) : Prop :=
  transcriptChunks st' = transcriptChunks st ∧
  fullTranscript st' = fullTranscript st ∧
  analysisResult st' = analysisResult st ∧
  isAnalyzing st' = isAnalyzing st ∧
  lastAnalyzedLength st' = lastAnalyzedLength st ∧
  analyzing st' = analyzing st ∧
  requests st' = requests st.

(** The transcript is the chunk list written out, and no chunk is empty. *)
Definition transcript_inv (st : State) : Prop :=
  fullTranscript st = transcript_of (transcriptChunks st) ∧
  Forall (λ c, text c ≠ []) (transcriptChunks st).

(** Every stored chunk has some text that is not white space. *)
Definition spoken (st : State) : Prop :=
  Forall (λ c, blank (text c) = false) (transcriptChunks st).

(** The flag [isAnalyzing] is set exactly while one call of
    [analyzeTranscript] is in flight, and there is never a second one. *)
Definition single_flight (st : State) : Prop :=
  (isAnalyzing st = false ∧ analyzing st = []) ∨
  (isAnalyzing st = true ∧ ∃ t, analyzing st = [t]).

(** What holds of every state of the component. *)
Definition wf (st : State) : Prop :=
  transcript_inv st ∧ spoken st ∧ 0 ≤ lastAnalyzedLength st.

End App.

(** ** src/components/TranscriptView.tsx *)

Module TranscriptView.

(** [ToInt32]: the value modulo 2^32, read as a signed 32-bit integer. *)
Definition toInt32 (x : Z) : Z :=
  let m := x mod 2 ^ 32 in
  if m <? 2 ^ 31 then m else m - 2 ^ 32.

(** [hash << 5] *)
Definition shl5 (hash : Z) : Z := toInt32 (Z.shiftl (toInt32 hash) 5).

Definition colors : list jsstr :=
  [ lit "text-cyan-400 border-cyan-400/30 bg-cyan-400/10";
    lit "text-purple-400 border-purple-400/30 bg-purple-400/10";
    lit "text-emerald-400 border-emerald-400/30 bg-emerald-400/10";
    lit "text-amber-400 border-amber-400/30 bg-amber-400/10";
    lit "text-pink-400 border-pink-400/30 bg-pink-400/10";
    lit "text-blue-400 border-blue-400/30 bg-blue-400/10" ].

(** The loop of [getSpeakerColor]; the numbers of the source are doubles,
    which hold these integers exactly below 2^53. *)
Definition speakerHash (speakerName : jsstr) : Z :=
  foldl (λ hash c, Z.of_N c + (shl5 hash - hash)) 0 speakerName.

(** [getSpeakerColor]; an index outside the array would give [undefined]. *)
Definition getSpeakerColor (speakerName : jsstr) : option jsstr :=
  colors !! Z.to_nat (Z.rem (Z.abs (speakerHash speakerName))
                        (Z.of_nat (List.length colors))).

(** Matching under the [i] flag: the pattern is ASCII, and a code unit
    outside ASCII never folds to an ASCII one. *)
Definition lower (c : N) : N :=
  if ((65 <=? c) && (c <=? 90))%N then (c + 32)%N else c.

Definition is_digit (c : N) : bool := ((48 <=? c) && (c <=? 57))%N.

Definition is_alpha (c : N) : bool :=
  ((97 <=? lower c) && (lower c <=? 122))%N.

Definition colon : N := 58%N.

(** A literal of the pattern, given in lower case, at the start of [s]:
    what follows it. *)
Fixpoint literal (pat s : jsstr) : option jsstr :=
  match pat, s with
  | [], _ => Some s
  | _ :: _, [] => None
  | p :: pat', c :: s' => if (lower c =? p)%N then literal pat' s' else None
  end.

(** The longest prefix whose units satisfy [f], and the rest. *)
Fixpoint span (f : N → bool) (s : jsstr) : jsstr * jsstr :=
  match s with
  | [] => ([], [])
  | c :: s' =>
      if f c then let '(a, b) := span f s' in (c :: a, b) else ([], s)
  end.

(** The colon that closes the pattern: the group and what follows the
    match. *)
Definition expect_colon (label s : jsstr) : option (jsstr * jsstr) :=
  match s with
  | c :: rest => if (c =? colon)%N then Some (label, rest) else None
  | [] => None
  end.

(** [word \d+] followed by the colon. *)
Definition numbered (word line : jsstr) : option (jsstr * jsstr) :=
  match literal word line with
  | Some after =>
      let '(ds, rest) := span is_digit after in
      match ds with
      | [] => None
      | _ :: _ =>
          expect_colon (take (List.length word + List.length ds) line) rest
      end
  | None => None
  end.

(** [Speaker [A-Z]] followed by the colon. *)
Definition lettered (line : jsstr) : option (jsstr * jsstr) :=
  match literal (lit "speaker ") line with
  | Some (c :: rest) =>
      if is_alpha c then expect_colon (take 9 line) rest else None
  | _ => None
  end.

(** [User] followed by the colon. *)
Definition user (line : jsstr) : option (jsstr * jsstr) :=
  match literal (lit "user") line with
  | Some rest => expect_colon (take 4 line) rest
  | None => None
  end.

(** [line.match(speakerRegex)] for
    [/^(Speaker \d+|Speaker [A-Z]|Participant \d+|User):/i]: the first
    group, and the line with the match removed. *)
Definition matchSpeaker (line : jsstr) : option (jsstr * jsstr) :=
  match numbered (lit "speaker ") line with
  | Some m => Some m
  | None =>
      match lettered line with
      | Some m => Some m
      | None =>
          match numbered (lit "participant ") line with
          | Some m => Some m
          | None => user line
          end
      end
  end.

(** The lines [TranscriptItem] renders. *)
Definition lines (text : jsstr) : list jsstr :=
  List.filter (λ line, truthy (trim line)) (split LF text).

Inductive Rendered : Type :=
| Labelled (speakerLabel message : jsstr) (colorClass : option jsstr)
| Plain (line : jsstr).

Definition renderLine (line : jsstr) : Rendered :=
  match matchSpeaker line with
  | Some (speakerLabel, rest) =>
      Labelled speakerLabel (trim rest) (getSpeakerColor speakerLabel)
  | None => Plain line
  end.

Definition TranscriptItem (text : jsstr) : list Rendered :=
  renderLine <$> lines text.

End TranscriptView.

(** ** src/components/AnalysisView.tsx *)

Module AnalysisView.

(** What [handleDownload] offers for saving. *)
Record Download := {
  content : jsstr;
  content_type : jsstr;
  download : jsstr
}.

(** [iso.slice(0, 19).replace(/:/g, '-')] *)
Definition stamp (iso : jsstr) : jsstr :=
  (λ c, if (c =? 58)%N then 45%N else c) <$> take 19 iso.

(** [handleDownload]; [iso] is [new Date().toISOString()]. *)
Definition handleDownload (analysisMarkdown iso : jsstr) : option Download :=
  if negb (truthy analysisMarkdown) then None
  else
    Some {| content := analysisMarkdown;
            content_type := lit "text/markdown";
            download := lit "meeting-summary-" ++ stamp iso ++ lit ".md" |}.

End AnalysisView.

(** * Sample inputs *)

Module Samples.

Definition quota_error : Thrown :=
  {| e_string :=
       lit "ApiError: got status: 429 Too Many Requests. Quota exceeded: limit 1500 requests per day";
     e_message :=
       lit "got status: 429 Too Many Requests. Quota exceeded: limit 1500 requests per day" |}.

Definition sample_blob : Blob :=
  {| size := 4096; type := lit "audio/webm;codecs=opus" |}.

Definition sample_read : Outcome jsstr :=
  Resolved (lit "data:audio/webm;codecs=opus;base64,GkXfo59ChoEB").

(** A platform where only the microphone can be captured. *)
Definition mic_stream : Recorder.MediaStream :=
  [{| Recorder.kind := Recorder.AudioKind; Recorder.track_id := 1 |}].

Definition mic_only : Recorder.Platform :=
  {| Recorder.displaySupported := true;
     Recorder.displayMedia :=
       Rejected
         {| e_string := lit "NotFoundError: Requested device not found";
            e_message := lit "Requested device not found" |};
     Recorder.userMedia := Resolved mic_stream;
     Recorder.audioContextThrows := None;
     Recorder.mediaRecorderThrows := None;
     Recorder.opusSupported := true;
     Recorder.mp4Supported := false;
     Recorder.recordedData := λ _, [4096%N] |}.

(** A platform whose permissions policy blocks the screen share. *)
Definition policy_blocked : Recorder.Platform :=
  {| Recorder.displaySupported := true;
     Recorder.displayMedia :=
       Rejected
         {| e_string :=
              lit "NotAllowedError: Access to the feature 'display-capture' is disallowed by permissions policy.";
            e_message :=
              lit "Access to the feature 'display-capture' is disallowed by permissions policy." |};
     Recorder.userMedia := Resolved mic_stream;
     Recorder.audioContextThrows := None;
     Recorder.mediaRecorderThrows := None;
     Recorder.opusSupported := true;
     Recorder.mp4Supported := false;
     Recorder.recordedData := λ _, [4096%N] |}.

(** A platform where neither source can be captured. *)
Definition nothing_granted : Recorder.Platform :=
  {| Recorder.displaySupported := true;
     Recorder.displayMedia :=
       Rejected
         {| e_string := lit "NotAllowedError: Permission denied";
            e_message := lit "Permission denied" |};
     Recorder.userMedia :=
       Rejected
         {| e_string := lit "NotAllowedError: Permission denied";
            e_message := lit "Permission denied" |};
     Recorder.audioContextThrows := None;
     Recorder.mediaRecorderThrows := None;
     Recorder.opusSupported := true;
     Recorder.mp4Supported := false;
     Recorder.recordedData := λ _, [] |}.

(** A transcription of more than 150 code units. *)
Definition long_text : jsstr :=
  lit "Speaker 1: Let us go over the release plan. The build is green, the migration has been rehearsed twice, and the rollback script is in the repository. Speaker 2: Agreed.".

(** The component after a recording was started and the first clip was
    completed. *)
Definition after_first_clip (apiKey : option jsstr) : App.State :=
  App.step apiKey (App.TimerFires mic_only)
    (App.step apiKey (App.ClickRecord mic_only) (App.init ∅)).

End Samples.
Import Samples.

(** * Properties *)

(** ** Strings *)

Section StringFacts.
Implicit Types s t : jsstr.

Lemma truthy_trimStart s : truthy (trimStart s) = negb (blank s).
Proof.
  induction s as [|c s IH]; [reflexivity|].
  cbn. destruct (is_space c); [exact IH | reflexivity].
Qed.

Lemma blank_trimStart s : blank (trimStart s) = blank s.
Proof.
  induction s as [|c s IH]; [reflexivity|].
  cbn. destruct (is_space c) eqn:Hc; cbn; [exact IH | now rewrite Hc].
Qed.

Lemma blank_app s t : blank (s ++ t) = blank s && blank t.
Proof. apply forallb_app. Qed.

Lemma blank_reverse s : blank (reverse s) = blank s.
Proof.
  induction s as [|c s IH]; [reflexivity|].
  rewrite reverse_cons, blank_app, IH. cbn.
  rewrite andb_true_r. apply andb_comm.
Qed.

Lemma truthy_reverse s : truthy (reverse s) = truthy s.
Proof.
  destruct s as [|c s]; [reflexivity|].
  rewrite reverse_cons. now destruct (reverse s).
Qed.

(** [s.trim()] is the empty string exactly when [s] is blank. *)
Lemma truthy_trim s : truthy (trim s) = negb (blank s).
Proof.
  unfold trim, trimEnd.
  now rewrite truthy_reverse, truthy_trimStart, blank_reverse, blank_trimStart.
Qed.

(** Trimming keeps a string non-blank. *)
Lemma blank_trim s : blank (trim s) = blank s.
Proof.
  unfold trim, trimEnd.
  now rewrite blank_reverse, blank_trimStart, blank_reverse, blank_trimStart.
Qed.

Lemma truthy_nonempty s : truthy s = true ↔ s ≠ [].
Proof. destruct s; cbn; split; congruence. Qed.

End StringFacts.

(** ** The service wrappers *)

Import Service.

Lemma checkApiKey_set k :
  truthy k = true → checkApiKey (Some k) = Returns tt.
Proof. intros H. unfold checkApiKey. now rewrite H. Qed.

(** The message of the [catch] block, by precedence of the tests. *)
Lemma transcribeErrorMessage_precedence errString :
  transcribeErrorMessage errString =
    if includes errString (lit "500") then MSG_UNAVAILABLE
    else if includes errString (lit "429") then MSG_USAGE_LIMIT
    else if includes errString (lit "401") || includes errString (lit "403")
         then MSG_UNAUTHORIZED
    else MSG_TRANSCRIPTION_FAILED.
Proof.
  unfold transcribeErrorMessage.
  destruct (includes errString (lit "500")),
    (includes errString (lit "429")),
    (includes errString (lit "401") || includes errString (lit "403"));
    reflexivity.
Qed.

(** C6, as stated, fails: a failed call whose error text carries the status
    429 together with the digits 500 is reported with the message of status
    500, not with 'Usage limit exceeded. Please wait a moment.'. *)
Lemma transcribe_429_reported_as_unavailable :
  includes (e_string quota_error) (lit "429") = true ∧
  (transcribeAudio (Some (lit "key")) sample_read (Rejected quota_error)
     sample_blob).2 = Throws (mkError MSG_UNAVAILABLE) ∧
  MSG_UNAVAILABLE ≠ MSG_USAGE_LIMIT.
Proof. repeat split; vm_compute; congruence. Qed.

(** C6 (amended): when the reading of the clip or the remote call fails with
    the API key set, [transcribeAudio] throws a new [Error] whose message is
    fixed by which of the texts 401, 403, 429 and 500 occur in [String(error)],
    a later test overriding an earlier one: 500 gives 'Gemini service
    temporarily unavailable.', otherwise 429 gives 'Usage limit exceeded.
    Please wait a moment.', otherwise 401 or 403 gives 'Invalid API Key or
    unauthorized access.', otherwise 'Transcription failed.'. *)
Theorem transcribe_failure_message apiKey read remote blob error :
  checkApiKey apiKey = Returns tt →
  read = Rejected error ∨ (∃ url, read = Resolved url) ∧ remote = Rejected error →
  (transcribeAudio apiKey read remote blob).2 =
    Throws (mkError
      (if includes (e_string error) (lit "500") then MSG_UNAVAILABLE
       else if includes (e_string error) (lit "429") then MSG_USAGE_LIMIT
       else if includes (e_string error) (lit "401")
               || includes (e_string error) (lit "403")
            then MSG_UNAUTHORIZED
       else MSG_TRANSCRIPTION_FAILED)).
Proof.
  intros Hkey Hfail. unfold transcribeAudio. rewrite Hkey.
  rewrite <- transcribeErrorMessage_precedence.
  destruct Hfail as [-> | [[url ->] ->]]; reflexivity.
Qed.

Lemma transcribe_failure_message_witness :
  (transcribeAudio (Some (lit "key")) sample_read
     (Rejected (mkError (lit "got status: 403 Forbidden"))) sample_blob).2 =
  Throws (mkError MSG_UNAUTHORIZED).
Proof.
  apply (transcribe_failure_message (Some (lit "key")) sample_read
           (Rejected (mkError (lit "got status: 403 Forbidden")))
           sample_blob (mkError (lit "got status: 403 Forbidden"))).
  - reflexivity.
  - right. split; [eexists; reflexivity | reflexivity].
Defined.

(** C8, as stated, fails: with the API key unset, [analyzeTranscript] on the
    empty transcript throws the missing-key error instead of returning the
    empty string. *)
Lemma analyze_empty_without_key_throws :
  analyzeTranscript None (Resolved None) [] =
    ([], Throws (mkError MSG_KEY_MISSING)) ∧
  (analyzeTranscript None (Resolved None) []).2 ≠ Returns [].
Proof. split; vm_compute; congruence. Qed.

(** C8 (amended): with the API key undefined or empty, [transcribeAudio] and
    [analyzeTranscript] throw 'Gemini API Key is missing. Please check your
    environment configuration.' and send nothing; with the key set,
    [analyzeTranscript] returns the empty string and sends nothing whenever
    the transcript is empty or white space only. *)
Theorem service_guards :
  (∀ apiKey read remote blob,
     apiKey = None ∨ apiKey = Some [] →
     transcribeAudio apiKey read remote blob =
       ([], Throws (mkError MSG_KEY_MISSING))) ∧
  (∀ apiKey remote fullTranscript,
     apiKey = None ∨ apiKey = Some [] →
     analyzeTranscript apiKey remote fullTranscript =
       ([], Throws (mkError MSG_KEY_MISSING))) ∧
  (∀ key remote fullTranscript,
     key ≠ [] → blank fullTranscript = true →
     analyzeTranscript (Some key) remote fullTranscript = ([], Returns [])).
Proof.
  split; [|split].
  - intros apiKey read remote blob [-> | ->]; reflexivity.
  - intros apiKey remote t [-> | ->]; reflexivity.
  - intros key remote t Hkey Hblank. unfold analyzeTranscript.
    rewrite checkApiKey_set by now apply truthy_nonempty.
    now rewrite truthy_trim, Hblank.
Qed.

Lemma service_guards_witness :
  transcribeAudio None sample_read (Resolved (Some (lit "hello"))) sample_blob =
    ([], Throws (mkError MSG_KEY_MISSING)) ∧
  analyzeTranscript (Some []) (Resolved (Some (lit "summary"))) (lit "Speaker 1: hi") =
    ([], Throws (mkError MSG_KEY_MISSING)) ∧
  analyzeTranscript (Some (lit "key")) (Resolved (Some (lit "summary")))
    (lit "   ") = ([], Returns []).
Proof.
  destruct service_guards as (H1 & H2 & H3).
  split; [|split].
  - apply H1. left. reflexivity.
  - apply H2. right. reflexivity.
  - apply H3; [discriminate | reflexivity].
Defined.

(** ** The component: transcript and analysis *)

Import App.

Section Delivery.

(** A relation that holds across each delivered callback holds across all of
    them. *)
Lemma foldl_deliver_rel (R : State → State → Prop) (l : list Recorder.Effect) :
  (∀ st, R st st) →
  (∀ a b c, R a b → R b c → R a c) →
  (∀ e st, e ∈ l → R st (deliver e st)) →
  ∀ st, R st (foldl (λ st e, deliver e st) st l).
Proof.
  intros Hrefl Htrans. induction l as [|e l IH]; intros Hstep st; cbn.
  - apply Hrefl.
  - eapply Htrans.
    + apply (Hstep e st). left.
    + apply IH. intros e' st' Hin. apply Hstep. now right.
Qed.

Lemma same_core_refl st : same_core st st.
Proof. now repeat split. Qed.

Lemma same_core_trans a b c : same_core a b → same_core b c → same_core a c.
Proof.
  unfold same_core. intros (?&?&?&?&?&?&?) (?&?&?&?&?&?&?).
  repeat split; congruence.
Qed.

Lemma deliver_same_core e st : same_core st (deliver e st).
Proof.
  destruct e; try apply same_core_refl.
  - unfold deliver, onError.
    destruct (includes message (lit "System audio blocked"));
      now repeat split.
  - now repeat split.
Qed.

Lemma deliver_recorder e st : recorder (deliver e st) = recorder st.
Proof.
  destruct e; try reflexivity.
  unfold deliver, onError.
  now destruct (includes message (lit "System audio blocked")).
Qed.

Lemma with_recorder_same_core f st : same_core st (with_recorder f st).
Proof.
  unfold with_recorder.
  eapply same_core_trans;
    [| apply (foldl_deliver_rel same_core);
       [apply same_core_refl | apply same_core_trans
       | intros; apply deliver_same_core]].
  now repeat split.
Qed.

Lemma with_recorder_recorder f st :
  recorder (with_recorder f st) = f (recorder st).
Proof.
  unfold with_recorder.
  apply (foldl_deliver_rel (λ a b, recorder a = f (recorder st) →
                                    recorder b = f (recorder st))).
  - auto.
  - auto.
  - intros e st' _ H. now rewrite deliver_recorder.
  - reflexivity.
Qed.

End Delivery.

Section Invariant.

Lemma wf_same st st' :
  transcriptChunks st' = transcriptChunks st →
  fullTranscript st' = fullTranscript st →
  lastAnalyzedLength st' = lastAnalyzedLength st →
  wf st → wf st'.
Proof.
  unfold wf, transcript_inv, spoken. intros -> -> ->. tauto.
Qed.

Lemma wf_same_core st st' : same_core st st' → wf st → wf st'.
Proof. intros (?&?&?&?&?&?&?). now apply wf_same. Qed.

Lemma wf_init storage : wf (init storage).
Proof.
  unfold wf, transcript_inv, spoken. cbn.
  split; [split|split]; try constructor; reflexivity.
Qed.

Lemma transcript_of_snoc chunks c :
  transcript_of (chunks ++ [c]) = transcript_of chunks ++ [LF] ++ text c.
Proof.
  unfold transcript_of. rewrite fmap_app, concat_app. cbn.
  now rewrite app_nil_r.
Qed.

(** What [transcribeAudio] returns is empty or has text in it. *)
Lemma transcribeAudio_returns apiKey read remote blob sent text :
  Service.transcribeAudio apiKey read remote blob = (sent, Returns text) →
  text = [] ∨ blank text = false.
Proof.
  unfold Service.transcribeAudio.
  destruct (Service.checkApiKey apiKey); [|discriminate].
  destruct (Service.blobToBase64 read); [|discriminate].
  destruct remote as [[t|]|]; intros [= _ <-]; [|now left].
  destruct (blank t) eqn:Hb.
  - left. apply dec_stable. intros Hne%truthy_nonempty.
    rewrite truthy_trim, Hb in Hne. discriminate.
  - right. now rewrite blank_trim.
Qed.

Lemma wf_triggerAnalysis st : wf st → wf (triggerAnalysis st).
Proof.
  intros H. unfold triggerAnalysis.
  destruct (isAnalyzing st || negb (truthy (trim (fullTranscript st))));
    [exact H|].
  destruct H as (H1 & H2 & _). repeat split; try apply H1; try apply H2.
  cbn. unfold len. lia.
Qed.

Lemma wf_analysis_effect st : wf st → wf (analysis_effect st).
Proof.
  intros H. unfold analysis_effect.
  destruct (_ && _); [now apply wf_triggerAnalysis | exact H].
Qed.

Lemma wf_analysis_settles apiKey remote st :
  wf st → wf (analysis_settles apiKey remote st).
Proof.
  intros H. unfold analysis_settles.
  destruct (analyzing st) as [|t rest]; [exact H|].
  destruct (Service.analyzeTranscript apiKey remote t) as [sent [result|e]];
    revert H; now apply wf_same.
Qed.

Lemma wf_processAudioChunk apiKey read remote d1 d2 seen blob st :
  wf st → wf (processAudioChunk apiKey read remote d1 d2 seen blob st).
Proof.
  intros H. unfold processAudioChunk.
  destruct (Service.transcribeAudio apiKey read remote blob)
    as [sent [text|e]] eqn:E.
  - destruct (truthy text) eqn:Ht; cbn.
    + apply transcribeAudio_returns in E as [-> | Hb]; [discriminate|].
      destruct H as ((H1 & H2) & H3 & H4).
      repeat split; cbn.
      * rewrite H1. symmetry. exact (transcript_of_snoc _ _).
      * apply Forall_app. split; [exact H2|].
        constructor; [|constructor]. cbn. now apply truthy_nonempty.
      * apply Forall_app. split; [exact H3|]. now repeat constructor.
      * exact H4.
    + revert H. now apply wf_same.
  - destruct (_ || _); revert H; now apply wf_same.
Qed.

Lemma wf_handleClear p st : wf (handleClear p st).
Proof.
  unfold wf, transcript_inv, spoken, handleClear. cbn.
  split; [split|split]; try constructor; reflexivity.
Qed.

Lemma wf_handle apiKey e st : wf st → wf (handle apiKey e st).
Proof.
  intros H. destruct e; cbn.
  - unfold handleToggleRecording. destruct (is_recording st).
    + apply wf_triggerAnalysis.
      eapply wf_same_core; [apply with_recorder_same_core | exact H].
    + eapply wf_same_core; [apply with_recorder_same_core | exact H].
  - apply wf_handleClear.
  - revert H. now apply wf_same.
  - now apply wf_triggerAnalysis.
  - eapply wf_same_core; [apply with_recorder_same_core | exact H].
  - eapply wf_same_core; [apply with_recorder_same_core | exact H].
  - unfold transcription_settles.
    destruct (transcribing st !! k); [|exact H].
    apply wf_processAudioChunk. revert H. now apply wf_same.
  - now apply wf_analysis_settles.
Qed.

Lemma wf_reachable apiKey st : reachable apiKey st → wf st.
Proof.
  induction 1 as [storage | e st _ IH].
  - apply wf_init.
  - apply wf_analysis_effect, wf_handle, IH.
Qed.

(** A transcript of well-formed chunks is blank only if it is empty. *)
Lemma wf_blank st : wf st → blank (fullTranscript st) = true → fullTranscript st = [].
Proof.
  intros ((H1 & _) & H3 & _). rewrite H1. unfold spoken in H3.
  destruct (transcriptChunks st) as [|c cs]; [reflexivity|].
  apply Forall_cons in H3 as [Hc _].
  unfold blank in *. cbn. rewrite forallb_app, Hc. discriminate.
Qed.

End Invariant.

Section Flight.

Lemma single_flight_same st st' :
  isAnalyzing st' = isAnalyzing st → analyzing st' = analyzing st →
  single_flight st → single_flight st'.
Proof. unfold single_flight. intros -> ->. tauto. Qed.

Lemma single_flight_same_core st st' :
  same_core st st' → single_flight st → single_flight st'.
Proof. intros (?&?&?&?&?&?&?). now apply single_flight_same. Qed.

Lemma single_flight_triggerAnalysis st :
  single_flight st → single_flight (triggerAnalysis st).
Proof.
  intros H. unfold triggerAnalysis.
  destruct (isAnalyzing st) eqn:Ha; cbn; [exact H|].
  destruct (negb (truthy (trim (fullTranscript st)))); [exact H|].
  destruct H as [[_ Hq] | [Hf _]]; [|congruence].
  right. cbn. rewrite Hq. eauto.
Qed.

Lemma single_flight_analysis_settles apiKey remote st :
  single_flight st → single_flight (analysis_settles apiKey remote st).
Proof.
  intros H. unfold analysis_settles.
  destruct (analyzing st) as [|t rest] eqn:Hq; [exact H|].
  destruct H as [[_ Hq'] | [_ [t' Hq']]]; [congruence|].
  assert (rest = []) as -> by congruence.
  destruct (Service.analyzeTranscript apiKey remote t) as [sent [result|e]];
    now left.
Qed.

Lemma single_flight_handle apiKey e st :
  single_flight st → single_flight (handle apiKey e st).
Proof.
  intros H. destruct e; cbn.
  - unfold handleToggleRecording. destruct (is_recording st).
    + apply single_flight_triggerAnalysis.
      eapply single_flight_same_core;
        [apply with_recorder_same_core | exact H].
    + eapply single_flight_same_core;
        [apply with_recorder_same_core | exact H].
  - unfold handleClear. destruct (is_recording st).
    + pose proof (with_recorder_same_core (Recorder.stopRecording p) st)
        as (?&?&?&?&?&?&?).
      revert H. now apply single_flight_same.
    + revert H. now apply single_flight_same.
  - revert H. now apply single_flight_same.
  - now apply single_flight_triggerAnalysis.
  - eapply single_flight_same_core; [apply with_recorder_same_core | exact H].
  - eapply single_flight_same_core; [apply with_recorder_same_core | exact H].
  - unfold transcription_settles.
    destruct (transcribing st !! k); [|exact H].
    unfold processAudioChunk.
    destruct (Service.transcribeAudio _ _ _ _) as [sent [text|err]].
    + destruct (negb (truthy text)); revert H; now apply single_flight_same.
    + destruct (_ || _); revert H; now apply single_flight_same.
  - now apply single_flight_analysis_settles.
Qed.

Lemma single_flight_analysis_effect st :
  single_flight st → single_flight (analysis_effect st).
Proof.
  intros H. unfold analysis_effect.
  destruct (_ && _); [now apply single_flight_triggerAnalysis | exact H].
Qed.

Lemma single_flight_reachable apiKey st :
  reachable apiKey st → single_flight st.
Proof.
  induction 1 as [storage | e st _ IH].
  - now left.
  - apply single_flight_analysis_effect, single_flight_handle, IH.
Qed.

End Flight.

(** C3: in every state the component renders after an event, if the
    transcript is more than ANALYSIS_TRIGGER_LENGTH = 150 code units longer
    than the length recorded at the last analysis and [isAnalyzing] is not
    set, the effect starts an analysis of the full transcript: the flag is
    set, the length is recorded and [analyzeTranscript] is called with the
    whole transcript, so that when the call settles the flag is cleared, the
    recorded length stays, the one request sent (the key being set) carries
    the whole transcript, and a summary received becomes [analysisResult].
    The effect starts nothing when the transcript has grown by 150 code
    units or fewer, or while [isAnalyzing] is set.  [triggerAnalysis] does
    nothing when the flag is set or the transcript is empty or white space
    only, and at most one analysis is ever in flight. *)
Theorem analysis_length_triggered apiKey st e :
  reachable apiKey st →
  let st1 := handle apiKey e st in
  (ANALYSIS_TRIGGER_LENGTH < len (fullTranscript st1) - lastAnalyzedLength st1 →
   isAnalyzing st1 = false →
   isAnalyzing (analysis_effect st1) = true ∧
   lastAnalyzedLength (analysis_effect st1) = len (fullTranscript st1) ∧
   analyzing (analysis_effect st1) = [fullTranscript st1] ∧
   fullTranscript (analysis_effect st1) = fullTranscript st1 ∧
   requests (analysis_effect st1) = requests st1 ∧
   ∀ remote,
     let st2 := analysis_settles apiKey remote (analysis_effect st1) in
     isAnalyzing st2 = false ∧
     analyzing st2 = [] ∧
     lastAnalyzedLength st2 = len (fullTranscript st1) ∧
     ∀ key, apiKey = Some key → key ≠ [] →
       requests st2 =
         requests st1 ++
         [AnalyzeRequest MODEL
            (lit "Current Transcript:" ++ [LF; LF] ++ fullTranscript st1)] ∧
       ∀ summary, remote = Resolved (Some summary) →
                  analysisResult st2 = summary) ∧
  (len (fullTranscript st1) - lastAnalyzedLength st1 ≤ ANALYSIS_TRIGGER_LENGTH ∨
   isAnalyzing st1 = true →
   analysis_effect st1 = st1) ∧
  (∀ st' : State,
     isAnalyzing st' = true ∨ blank (fullTranscript st') = true →
     triggerAnalysis st' = st') ∧
  (List.length (analyzing (step apiKey e st)) ≤ 1)%nat.
Proof.
  intros Hreach st1. split; [|split; [|split]].
  - intros Hlen Hidle.
    pose proof (wf_handle apiKey e st (wf_reachable _ _ Hreach)) as Hwf.
    pose proof (single_flight_handle apiKey e st
                  (single_flight_reachable _ _ Hreach)) as Hsf.
    fold st1 in Hwf, Hsf. clearbody st1.
    assert (blank (fullTranscript st1) = false) as Hb.
    { destruct (blank (fullTranscript st1)) eqn:Hb; [|reflexivity].
      apply wf_blank in Hb; [|exact Hwf].
      destruct Hwf as (_ & _ & Hpos). rewrite Hb in Hlen.
      unfold ANALYSIS_TRIGGER_LENGTH, len in Hlen. cbn in Hlen. lia. }
    assert (analyzing st1 = []) as Hq.
    { destruct Hsf as [[_ Hq] | [Hf _]]; [exact Hq | congruence]. }
    assert (analysis_effect st1 =
            set_analyzing [fullTranscript st1]
              (setLastAnalyzedLength (len (fullTranscript st1))
                 (setIsAnalyzing true st1))) as Heff.
    { unfold analysis_effect.
      apply Z.ltb_lt in Hlen. rewrite Hlen, Hidle. cbn [andb negb].
      unfold triggerAnalysis. rewrite Hidle, truthy_trim, Hb. cbn.
      now rewrite Hq. }
    rewrite Heff. repeat (split; [reflexivity|]).
    intros remote. unfold analysis_settles.
    cbn [analyzing set_analyzing setLastAnalyzedLength setIsAnalyzing].
    destruct (analyzeTranscript apiKey remote (fullTranscript st1))
      as [sent completion] eqn:Hcall.
    assert (∀ key, apiKey = Some key → key ≠ [] →
              sent = [AnalyzeRequest MODEL
                        (lit "Current Transcript:" ++ [LF; LF]
                         ++ fullTranscript st1)] ∧
              ∀ summary, remote = Resolved (Some summary) →
                         completion = Returns summary) as Hsent.
    { intros key -> Hkey. unfold analyzeTranscript in Hcall.
      rewrite checkApiKey_set in Hcall by now apply truthy_nonempty.
      rewrite truthy_trim, Hb in Hcall. cbn [negb] in Hcall.
      destruct remote as [text | err]; injection Hcall as <- <-;
        (split; [reflexivity|]); intros summary Hr; [|discriminate].
      now injection Hr as ->. }
    destruct completion as [result | err]; cbn;
      (split; [reflexivity|]); (split; [reflexivity|]);
      (split; [reflexivity|]);
      intros key Hk Hne; destruct (Hsent key Hk Hne) as [-> Hres];
      (split; [reflexivity|]); intros summary Hr;
      specialize (Hres summary Hr); congruence.
  - intros Hno. unfold analysis_effect.
    destruct Hno as [Hle | Hrun].
    + apply Z.ltb_ge in Hle. now rewrite Hle.
    + rewrite Hrun. cbn [negb]. now rewrite andb_false_r.
  - intros st' [Hrun | Hblank]; unfold triggerAnalysis.
    + now rewrite Hrun.
    + rewrite truthy_trim, Hblank. cbn. now rewrite orb_true_r.
  - pose proof (single_flight_reachable apiKey _ (reach_step apiKey e st Hreach))
      as [[_ ->] | [_ [t ->]]]; cbn; lia.
Qed.

Lemma after_first_clip_reachable apiKey :
  reachable apiKey (after_first_clip apiKey).
Proof.
  unfold after_first_clip.
  exact (reach_step _ _ _ (reach_step _ _ _ (reach_init _ _))).
Qed.

Lemma analysis_length_triggered_witness :
  let key := Some (lit "key") in
  let e := TranscriptionSettles 0 sample_read (Resolved (Some long_text)) 1 1 in
  let st2 := step key e (after_first_clip key) in
  isAnalyzing st2 = true ∧
  analyzing st2 = [LF :: long_text] ∧
  requests (analysis_settles key (Resolved (Some (lit "# Summary"))) st2)
  = requests (handle key e (after_first_clip key)) ++
    [AnalyzeRequest MODEL
       (lit "Current Transcript:" ++ [LF; LF] ++ LF :: long_text)] ∧
  analysis_effect
    (handle key (TimerFires mic_only)
       (step key (ClickRecord mic_only) (init ∅)))
  = handle key (TimerFires mic_only) (step key (ClickRecord mic_only) (init ∅)).
Proof.
  intros key e st2.
  pose proof (after_first_clip_reachable key) as Hreach.
  destruct (analysis_length_triggered key (after_first_clip key) e Hreach)
    as [H _].
  destruct (analysis_length_triggered key
              (step key (ClickRecord mic_only) (init ∅))
              (TimerFires mic_only) (reach_step _ _ _ (reach_init key ∅)))
    as (_ & Hnot & _).
  destruct H as (H1 & _ & H3 & _ & _ & H4).
  - vm_compute. reflexivity.
  - vm_compute. reflexivity.
  - destruct (H4 (Resolved (Some (lit "# Summary")))) as (_ & _ & _ & H5).
    destruct (H5 (lit "key") eq_refl) as [Hreq _]; [discriminate|].
    split; [exact H1|].
    split; [unfold st2, step; rewrite H3; vm_compute; reflexivity|].
    split; [exact Hreq|].
    apply Hnot. left. vm_compute. discriminate.
Defined.

(** ** The recorder hook *)

Module RecorderFacts.
Import Recorder.

Lemma quietly_refl s : quietly s s.
Proof. exists []. split; [now rewrite app_nil_r | constructor]. Qed.

Lemma quietly_trans a b c : quietly a b → quietly b c → quietly a c.
Proof.
  intros (n1 & H1 & F1) (n2 & H2 & F2). exists (n1 ++ n2). split.
  - now rewrite H2, H1, app_assoc.
  - apply Forall_app. now split.
Qed.

Lemma quietly_log_eq s s' : log s' = log s → quietly s s'.
Proof.
  intros H. exists []. split; [now rewrite app_nil_r | constructor].
Qed.

Lemma quietly_emit e s : silent e = true → quietly s (emit e s).
Proof. intros H. exists [e]. split; [reflexivity | now repeat constructor]. Qed.


Lemma recorder_stop_quietly p r s : quietly s (recorder_stop p r s).
Proof.
  unfold recorder_stop. destruct (recorders s !! r) as [mr|];
    [|apply quietly_refl].
  match goal with |- context [if ?b then _ else _] => destruct b end.
  - eapply quietly_trans; [|now apply quietly_emit].
    eapply quietly_trans; [|now apply quietly_emit].
    now apply quietly_log_eq.
  - eapply quietly_trans; [|now apply quietly_emit].
    now apply quietly_log_eq.
Qed.

Lemma stop_tracks_quietly tracks s :
  quietly s (foldl (λ s t, emit (TrackStop t) s) s tracks).
Proof.
  revert s. induction tracks as [|t tracks IH]; intros s; cbn.
  - apply quietly_refl.
  - eapply quietly_trans; [|apply IH]. now apply quietly_emit.
Qed.

Lemma stopRecording_quietly p s : quietly s (stopRecording p s).
Proof.
  unfold stopRecording.
  set (s1 := set_isRecordingRef false s).
  set (s2 := match mediaRecorderRef s1 with Some _ => _ | None => _ end).
  assert (quietly s s2) as H2.
  { subst s2. eapply quietly_trans; [apply (quietly_log_eq s s1); reflexivity|].
    destruct (mediaRecorderRef s1) as [r|]; [|apply quietly_refl].
    destruct (recorders s1 !! r) as [mr|]; [|apply quietly_refl].
    destruct (recording mr); [apply recorder_stop_quietly | apply quietly_refl]. }
  clearbody s2.
  set (s3 := set_mediaRecorderRef None s2).
  set (s4 := foldl _ s3 _).
  assert (quietly s s4) as H4.
  { eapply quietly_trans; [exact H2|].
    eapply quietly_trans; [apply (quietly_log_eq s2 s3); reflexivity|].
    apply stop_tracks_quietly. }
  clearbody s4.
  set (s5 := set_streamTracksRef [] s4).
  eapply quietly_trans; [exact H4|].
  eapply quietly_trans; [apply (quietly_log_eq s4 s5); reflexivity|].
  destruct (audioContextRef s5) as [c|].
  - eapply quietly_trans; [|apply quietly_log_eq; reflexivity].
    eapply quietly_trans; [|apply quietly_log_eq; reflexivity].
    eapply quietly_trans; [|now apply (quietly_emit (ContextClose c))].
    now apply quietly_log_eq.
  - now apply quietly_log_eq.
Qed.



Lemma stop_tracks_isRecordingRef tracks s :
  isRecordingRef (foldl (λ s t, emit (TrackStop t) s) s tracks)
  = isRecordingRef s.
Proof.
  revert s. induction tracks as [|t tracks IH]; intros s; cbn; [reflexivity|].
  now rewrite IH.
Qed.

Lemma recorder_stop_isRecordingRef p r s :
  isRecordingRef (recorder_stop p r s) = isRecordingRef s.
Proof.
  unfold recorder_stop. destruct (recorders s !! r) as [mr|]; [|reflexivity].
  now match goal with |- context [if ?b then _ else _] => destruct b end.
Qed.

Lemma stopRecording_state p s :
  recordingState (stopRecording p s) = IDLE ∧
  isRecordingRef (stopRecording p s) = false.
Proof.
  unfold stopRecording. split; [reflexivity|].
  match goal with
  | |- isRecordingRef (setRecordingState _ (set_audioContextRef _ ?x)) = _ =>
      change (isRecordingRef x = false)
  end.
  match goal with
  | |- isRecordingRef (match ?o with Some _ => _ | None => ?x end) = _ =>
      assert (isRecordingRef x = false) as H; [|destruct o; exact H]
  end.
  match goal with
  | |- isRecordingRef (set_streamTracksRef _ ?x) = _ =>
      change (isRecordingRef x = false)
  end.
  rewrite stop_tracks_isRecordingRef.
  match goal with
  | |- isRecordingRef (set_mediaRecorderRef _ ?x) = _ =>
      change (isRecordingRef x = false)
  end.
  destruct (mediaRecorderRef _) as [r|]; [|reflexivity].
  destruct (recorders _ !! r) as [mr|]; [|reflexivity].
  destruct (recording mr); [|reflexivity].
  now rewrite recorder_stop_isRecordingRef.
Qed.

(** One turn of the chunk loop: the timeout of the running recorder fires at
    its due time, the clip from [a] to [a + interval] is completed, and the
    next recorder starts at that same instant. *)
Ltac rsimpl :=
  cbn [setRecordingState set_mediaRecorderRef set_audioContextRef
       set_streamTracksRef set_isRecordingRef set_now set_recorders
       set_contexts set_timers emit
       recordingState mediaRecorderRef audioContextRef streamTracksRef
       isRecordingRef now recorders contexts timers log
       due timer_recorder timer_context mimeType recording startedAt
       fst snd negb andb orb size type default from_option Datatypes.id]
    in *.



(** The default interval and the one the App configures. *)
Lemma interval_values :
  interval {| chunkInterval := None; enableSystemAudio := true |} = 5000 ∧
  interval (App.recorderProps (App.init ∅)) = 8000.
Proof. split; reflexivity. Qed.


(** Stopping tracks only writes to the log. *)
Lemma stop_tracks_eq tracks s :
  foldl (λ s t, emit (TrackStop t) s) s tracks =
  {| recordingState := recordingState s;
     mediaRecorderRef := mediaRecorderRef s;
     audioContextRef := audioContextRef s;
     streamTracksRef := streamTracksRef s;
     isRecordingRef := isRecordingRef s; now := now s;
     recorders := recorders s; contexts := contexts s; timers := timers s;
     log := log s ++ (TrackStop <$> tracks) |}.
Proof.
  revert s. induction tracks as [|t tracks IH]; intros s; destruct s; cbn.
  - now rewrite app_nil_r.
  - rewrite IH. rsimpl. now rewrite <- app_assoc.
Qed.

Lemma since_app s s' new : log s' = log s ++ new → since s s' = new.
Proof. intros H. unfold since. now rewrite H, drop_app_length. Qed.

Lemma quietly_extends s s' : quietly s s' → ∃ new, log s' = log s ++ new.
Proof. intros (new & H & _). eauto. Qed.

(** The effects of a run of [startChunkLoop] on an idle hook begin with the
    request for the screen share whenever the browser offers it. *)
Lemma startChunkLoop_asks_display p props s :
  isRecordingRef s = false → displaySupported p = true →
  ∃ rest, log (startChunkLoop p props s) = log s ++ GetDisplayMedia :: rest.
Proof.
  intros Hidle Hsup.
  destruct p as [sup dm um ctxThrows recThrows opus mp4 data].
  destruct s as [rs mref aref tracks flag t recs ctxs tms lg].
  cbn in Hidle, Hsup. subst flag sup.
  unfold startChunkLoop. rsimpl. cbn [displaySupported displayMedia userMedia
    audioContextThrows].
  assert (∀ s0 pre, log s0 = lg ++ GetDisplayMedia :: pre →
            ∃ rest, log (stopRecording
                           {| displaySupported := true; displayMedia := dm;
                              userMedia := um;
                              audioContextThrows := ctxThrows;
                              mediaRecorderThrows := recThrows;
                              opusSupported := opus; mp4Supported := mp4;
                              recordedData := data |} s0)
                    = lg ++ GetDisplayMedia :: rest) as Hstop.
  { intros s0 pre H0.
    destruct (quietly_extends _ _ (stopRecording_quietly
      {| displaySupported := true; displayMedia := dm; userMedia := um;
         audioContextThrows := ctxThrows; mediaRecorderThrows := recThrows;
         opusSupported := opus; mp4Supported := mp4; recordedData := data |}
      s0)) as [new Hnew].
    exists (pre ++ new). rewrite Hnew, H0, <- app_assoc. reflexivity. }
  destruct dm as [stream | err].
  - destruct (getAudioTracks stream) as [|track rest_tracks];
      [rewrite stop_tracks_eq|]; rsimpl;
      destruct um as [mic | micErr]; rsimpl; cbn [present];
      try (eapply Hstop; rsimpl; rewrite <- ?app_assoc; reflexivity);
      (destruct ctxThrows as [err|];
       [ unfold start_failed; eapply Hstop; rsimpl;
         rewrite <- ?app_assoc; reflexivity |]);
      unfold recordSegment; rsimpl; cbn [mediaRecorderThrows];
      rewrite lookup_app_r by lia; rewrite Nat.sub_diag; cbn [lookup list_lookup];
      rsimpl;
      (destruct recThrows as [err|];
       [ unfold start_failed; eapply Hstop; rsimpl;
         rewrite <- ?app_assoc; reflexivity |]);
      rsimpl; rewrite <- ?app_assoc; eexists; reflexivity.
  - destruct (includes (e_string err) (lit "permissions policy")),
      (includes (e_string err) (lit "denied")); rsimpl;
      destruct um as [mic | micErr]; rsimpl; cbn [present];
      try (eapply Hstop; rsimpl; rewrite <- ?app_assoc; reflexivity);
      (destruct ctxThrows as [err'|];
       [ unfold start_failed; eapply Hstop; rsimpl;
         rewrite <- ?app_assoc; reflexivity |]);
      unfold recordSegment; rsimpl; cbn [mediaRecorderThrows];
      rewrite lookup_app_r by lia; rewrite Nat.sub_diag; cbn [lookup list_lookup];
      rsimpl;
      (destruct recThrows as [err'|];
       [ unfold start_failed; eapply Hstop; rsimpl;
         rewrite <- ?app_assoc; reflexivity |]);
      rsimpl; rewrite <- ?app_assoc; eexists; reflexivity.
Qed.

(** C7: the hook reads [chunkInterval] from the props object and nothing
    else, so two runs that differ only in the [enableSystemAudio] property
    the App passes do the same thing, in [startRecording] and in every turn
    of the chunk loop; whatever the preference, the recorder state the App
    gets from its record button is the same, and an idle hook asks for the
    screen share whenever the browser offers [getDisplayMedia]. *)
Theorem recorder_ignores_enableSystemAudio p props props' s :
  chunkInterval props = chunkInterval props' →
  startChunkLoop p props s = startChunkLoop p props' s ∧
  timer_fires p props s = timer_fires p props' s ∧
  (∀ st b,
     App.recorder (App.handleToggleRecording p (App.setEnableSystemAudio b st))
     = App.recorder (App.handleToggleRecording p st)) ∧
  (isRecordingRef s = false → displaySupported p = true →
   GetDisplayMedia ∈ since s (startChunkLoop p props s)).
Proof.
  intros Hsame. destruct props as [ci b], props' as [ci' b'].
  cbn in Hsame. subst ci'.
  split; [reflexivity|]. split; [reflexivity|]. split.
  - intros st b0. unfold App.handleToggleRecording.
    change (App.is_recording (App.setEnableSystemAudio b0 st))
      with (App.is_recording st).
    destruct (App.is_recording st).
    + unfold App.triggerAnalysis.
      destruct (_ || _), (_ || _); cbn;
        now rewrite !with_recorder_recorder.
    + now rewrite !with_recorder_recorder.
  - intros Hidle Hsup.
    destruct (startChunkLoop_asks_display p {| chunkInterval := ci;
                enableSystemAudio := b |} s Hidle Hsup) as [rest Hlog].
    rewrite (since_app _ _ _ Hlog). left.
Qed.

Lemma recorder_ignores_enableSystemAudio_witness :
  startChunkLoop mic_only
    {| chunkInterval := Some 8000; enableSystemAudio := true |} init =
  startChunkLoop mic_only
    {| chunkInterval := Some 8000; enableSystemAudio := false |} init ∧
  GetDisplayMedia ∈
    since init
      (startChunkLoop mic_only
         {| chunkInterval := Some 8000; enableSystemAudio := false |} init).
Proof.
  destruct (recorder_ignores_enableSystemAudio mic_only
              {| chunkInterval := Some 8000; enableSystemAudio := false |}
              {| chunkInterval := Some 8000; enableSystemAudio := true |}
              init eq_refl) as (H1 & _ & _ & H4).
  split; [symmetry; exact H1 | apply H4; reflexivity].
Defined.

Lemma connected_stops tracks : connected (TrackStop <$> tracks) = [].
Proof. induction tracks as [|t tracks IH]; [reflexivity | exact IH]. Qed.

Lemma notices_in_stops tracks : notices_in (TrackStop <$> tracks) = [].
Proof. induction tracks as [|t tracks IH]; [reflexivity | exact IH]. Qed.

(** C2, as stated, fails: when [getDisplayMedia] is rejected for a reason
    that mentions neither a permissions policy nor a denial, recording goes
    on with the microphone alone and [onError] is never called; the failure
    is only written to the console. *)
Lemma start_generic_failure_not_notified :
  let s := startChunkLoop mic_only (App.recorderProps (App.init ∅)) init in
  system_audio_available mic_only = false ∧
  isRecordingRef s = true ∧
  recordingState s = RECORDING ∧
  connected (log s) = [mic_stream] ∧
  notices s = [].
Proof. vm_compute. repeat split. Qed.

Lemma connected_app l k : connected (l ++ k) = connected l ++ connected k.
Proof. apply omap_app. Qed.

Lemma notices_in_app l k : notices_in (l ++ k) = notices_in l ++ notices_in k.
Proof. apply omap_app. Qed.

Lemma stop_after_notice p s s0 pre m t :
  log s0 = log s ++ pre →
  (m, t) ∈ notices_in pre →
  (m, t) ∈ notices_in (since s (stopRecording p s0)).
Proof.
  intros Hpre Hin.
  destruct (quietly_extends _ _ (stopRecording_quietly p s0)) as [new Hnew].
  rewrite (since_app s _ (pre ++ new)) by now rewrite Hnew, Hpre, app_assoc.
  rewrite notices_in_app. apply elem_of_app. now left.
Qed.

Ltac since_explicit :=
  unfold since; rsimpl; rewrite <- ?app_assoc, drop_app_length;
  rewrite ?connected_app, ?notices_in_app, ?connected_stops,
    ?notices_in_stops.

(** Finish the evaluation of a run of [startChunkLoop] whose branches have
    been decided and in which both constructors succeed. *)
Ltac start_explicit H :=
  rsimpl; cbn [present] in H;
  unfold recordSegment in H; rsimpl; cbn [mediaRecorderThrows] in H;
  rewrite lookup_app_r in H by lia; rewrite Nat.sub_diag in H;
  cbn [lookup list_lookup] in H; rsimpl;
  match type of H with ?x = _ => subst x end.

(** C2 (amended): on an idle hook, when the screen share yields no audio
    track (unsupported, rejected, or shared without audio) and the microphone
    is granted, [startRecording] records the microphone alone; the user is
    told through [onError] when the share was blocked by a permissions policy
    and when the shared stream has no audio track, while a rejection that
    mentions neither a permissions policy nor a denial is only logged to the
    console.  When the microphone is refused too, [onError] is called with
    'Could not access Microphone or System Audio. Please check permissions.'
    and the hook is back in the IDLE state with the recording flag cleared. *)
Theorem start_recovers_from_partial_grants p props s :
  isRecordingRef s = false →
  system_audio_available p = false →
  let s' := startChunkLoop p props s in
  match userMedia p with
  | Resolved mic =>
      audioContextThrows p = None → mediaRecorderThrows p = None →
      (isRecordingRef s' = true ∧ recordingState s' = RECORDING ∧
       streamTracksRef s' = mic ∧ connected (since s s') = [mic] ∧
       ∃ r, mediaRecorderRef s' = Some r ∧
            RecorderStart r (now s) ∈ since s s') ∧
      (displaySupported p = true →
       match displayMedia p with
       | Resolved stream =>
           notices_in (since s s') = [(MSG_NO_SYSTEM_AUDIO, info)]
       | Rejected err =>
           if includes (e_string err) (lit "permissions policy")
           then notices_in (since s s') = [(MSG_BLOCKED, info)]
           else if includes (e_string err) (lit "denied") then True
           else notices_in (since s s') = [] ∧
                ConsoleWarn WARN_DISPLAY_FAILED ∈ since s s'
       end)
  | Rejected _ =>
      recordingState s' = IDLE ∧ isRecordingRef s' = false ∧
      (MSG_NO_SOURCE, error) ∈ notices_in (since s s')
  end.
Proof.
  intros Hidle Havail s'.
  destruct p as [sup dm um ctxThrows recThrows opus mp4 data].
  destruct s as [rs mref aref tracks flag t recs ctxs tms lg].
  unfold system_audio_available in Havail.
  cbn in Hidle, Havail. subst flag.
  cbn [userMedia audioContextThrows mediaRecorderThrows displaySupported
       displayMedia].
  pose proof (eq_refl s') as Hs'. unfold s' at 2 in Hs'. clearbody s'.
  unfold startChunkLoop in Hs'.
  cbn [isRecordingRef displaySupported displayMedia userMedia
       audioContextThrows] in Hs'.
  destruct um as [mic | micErr].
  - (* the microphone is granted *)
    intros -> ->.
    destruct sup; [destruct dm as [stream | err]|].
    + destruct (getAudioTracks stream) as [|track rest]; [|discriminate].
      rewrite stop_tracks_eq in Hs'. start_explicit Hs'.
      split; [|intros _; since_explicit; reflexivity].
      repeat split; try (since_explicit; reflexivity).
      eexists. split; [reflexivity|]. since_explicit. set_solver.
    + destruct (includes (e_string err) (lit "permissions policy")) eqn:Hpol,
        (includes (e_string err) (lit "denied")) eqn:Hden;
        cbn [orb] in Hs'; start_explicit Hs';
        (split;
         [ repeat split; try (since_explicit; reflexivity);
           eexists; (split; [reflexivity|]); since_explicit; set_solver
         | intros _; first
             [ exact I
             | since_explicit; reflexivity
             | since_explicit; split; [reflexivity | set_solver] ] ]).
    + start_explicit Hs'.
      split; [|discriminate].
      repeat split; try (since_explicit; reflexivity).
      eexists. split; [reflexivity|]. since_explicit. set_solver.
  - (* the microphone is refused as well *)
    destruct sup; [destruct dm as [stream | err]|].
    + destruct (getAudioTracks stream) as [|track rest]; [|discriminate].
      rewrite stop_tracks_eq in Hs'. rsimpl.
      cbn [present] in Hs'. subst s'.
      split; [apply stopRecording_state|].
      split; [apply stopRecording_state|].
      eapply stop_after_notice.
      * rsimpl. rewrite <- ?app_assoc. reflexivity.
      * rewrite ?notices_in_app, ?notices_in_stops. cbn. set_solver.
    + destruct (includes (e_string err) (lit "permissions policy")),
        (includes (e_string err) (lit "denied"));
        cbn [orb] in Hs'; rsimpl; cbn [present] in Hs';
        subst s';
        (split; [apply stopRecording_state|]);
        (split; [apply stopRecording_state|]);
        (eapply stop_after_notice;
         [ rsimpl; rewrite <- ?app_assoc; reflexivity
         | cbn; set_solver ]).
    + rsimpl. cbn [present] in Hs'. subst s'.
      split; [apply stopRecording_state|].
      split; [apply stopRecording_state|].
      eapply stop_after_notice.
      * rsimpl. rewrite <- ?app_assoc. reflexivity.
      * cbn. set_solver.
Qed.

Lemma start_recovers_from_partial_grants_witness :
  let props := App.recorderProps (App.init ∅) in
  (let s' := startChunkLoop policy_blocked props init in
   isRecordingRef s' = true ∧
   connected (since init s') = [mic_stream] ∧
   notices_in (since init s') = [(MSG_BLOCKED, info)]) ∧
  (let s' := startChunkLoop nothing_granted props init in
   recordingState s' = IDLE ∧
   (MSG_NO_SOURCE, error) ∈ notices_in (since init s')).
Proof.
  intros props. split.
  - destruct (start_recovers_from_partial_grants policy_blocked props init
                eq_refl eq_refl eq_refl eq_refl)
      as [(Hflag & _ & _ & Hmix & _) Hnote].
    split; [exact Hflag|]. split; [exact Hmix|]. exact (Hnote eq_refl).
  - destruct (start_recovers_from_partial_grants nothing_granted props init
                eq_refl eq_refl) as (Hstate & _ & Hnote).
    split; [exact Hstate | exact Hnote].
Defined.

(** A successful [startRecording] on an idle hook with no timeout pending
    leaves the chunk loop running, the first recorder started at the current
    instant. *)
Lemma startChunkLoop_chunking p props s :
  isRecordingRef s = false → timers s = [] → 0 ≤ interval props →
  audioContextThrows p = None → mediaRecorderThrows p = None →
  system_audio_available p = true ∨ (∃ mic, userMedia p = Resolved mic) →
  chunking props (startChunkLoop p props s) (now s).
Proof.
  intros Hidle Htimers Hpos Hctx Hrec Hsrc.
  destruct p as [sup dm um ctxThrows recThrows opus mp4 data].
  destruct s as [rs mref aref tracks flag t recs ctxs tms lg].
  unfold system_audio_available in Hsrc.
  cbn in Hidle, Htimers, Hctx, Hrec, Hsrc. subst flag tms ctxThrows recThrows.
  pose proof (eq_refl (startChunkLoop
    {| displaySupported := sup; displayMedia := dm; userMedia := um;
       audioContextThrows := None; mediaRecorderThrows := None;
       opusSupported := opus; mp4Supported := mp4; recordedData := data |}
    props
    {| recordingState := rs; mediaRecorderRef := mref;
       audioContextRef := aref; streamTracksRef := tracks;
       isRecordingRef := false; now := t; recorders := recs;
       contexts := ctxs; timers := []; log := lg |})) as Hs'.
  set (s' := startChunkLoop _ _ _) in Hs' at 1 |- *. clearbody s'.
  unfold startChunkLoop in Hs'.
  cbn [isRecordingRef displaySupported displayMedia userMedia
       audioContextThrows now] in Hs' |- *.
  assert (∀ s0 : State,
            isRecordingRef s0 = true → now s0 = t →
            mediaRecorderRef s0 = Some (List.length recs) →
            (∃ mime, recorders s0 !! List.length recs =
               Some {| mimeType := mime; recording := true; startedAt := t |}) →
            timers s0 = [{| due := t + Z.max 0 (interval props);
                            timer_recorder := List.length recs;
                            timer_context := List.length ctxs |}] →
            contexts s0 !! List.length ctxs = Some false →
            chunking props s0 t) as Hfinish.
  { intros s0 H1 H2 H3 [mime H4] H5 H6. split; [exact H1|].
    split; [lia|]. exists (List.length recs), (List.length ctxs), mime.
    rewrite H5, Z.max_r by lia. now repeat split. }
  assert (∀ l : list MediaRecorder, ∀ x,
            (l ++ [x]) !! List.length l = Some x) as Hlast.
  { intros l x. rewrite lookup_app_r by lia. now rewrite Nat.sub_diag. }
  destruct sup; [destruct dm as [stream | err]|].
  - destruct (getAudioTracks stream) as [|track rest].
    + destruct Hsrc as [? | [mic ->]]; [discriminate|].
      rewrite stop_tracks_eq in Hs'. start_explicit Hs'.
      apply Hfinish; rsimpl; eauto.
      rewrite lookup_app_r by lia. now rewrite Nat.sub_diag.
    + destruct um as [mic | micErr]; start_explicit Hs';
        (apply Hfinish; rsimpl; eauto;
         rewrite lookup_app_r by lia; now rewrite Nat.sub_diag).
  - destruct Hsrc as [? | [mic ->]]; [discriminate|].
    destruct (includes (e_string err) (lit "permissions policy")),
      (includes (e_string err) (lit "denied"));
      cbn [orb] in Hs'; start_explicit Hs';
      (apply Hfinish; rsimpl; eauto;
       rewrite lookup_app_r by lia; now rewrite Nat.sub_diag).
  - destruct Hsrc as [? | [mic ->]]; [discriminate|].
    start_explicit Hs'.
    apply Hfinish; rsimpl; eauto.
    rewrite lookup_app_r by lia. now rewrite Nat.sub_diag.
Qed.

End RecorderFacts.

(** ** The component: chunks, transcript and storage *)

Lemma transcript_inv_same st st' :
  transcriptChunks st' = transcriptChunks st →
  fullTranscript st' = fullTranscript st →
  transcript_inv st → transcript_inv st'.
Proof. unfold transcript_inv. intros -> ->. tauto. Qed.

Lemma transcript_inv_processAudioChunk apiKey read remote d1 d2 seen blob st :
  transcript_inv st →
  transcript_inv (processAudioChunk apiKey read remote d1 d2 seen blob st).
Proof.
  intros H. unfold processAudioChunk.
  destruct (Service.transcribeAudio apiKey read remote blob)
    as [sent [text|e]].
  - destruct (truthy text) eqn:Ht; cbn.
    + destruct H as [H1 H2]. split; cbn.
      * rewrite H1. symmetry. exact (transcript_of_snoc _ _).
      * apply Forall_app. split; [exact H2|].
        constructor; [|constructor]. cbn. now apply truthy_nonempty.
    + revert H. now apply transcript_inv_same.
  - destruct (_ || _); revert H; now apply transcript_inv_same.
Qed.

(** C9: in every state of the component [fullTranscript] is the
    concatenation, in order, of a line feed followed by the text of each
    chunk of [transcriptChunks], and no stored chunk has empty text; the
    invariant holds at mount, is kept by [processAudioChunk] when it appends
    a transcribed chunk, and holds after [handleClear], which resets
    [transcriptChunks], [fullTranscript], [analysisResult] and
    [lastAnalyzedLength] together. *)
Theorem transcript_invariant apiKey :
  (∀ st, reachable apiKey st → transcript_inv st) ∧
  (∀ read remote d1 d2 seen blob st,
     transcript_inv st →
     transcript_inv (processAudioChunk apiKey read remote d1 d2 seen blob st)) ∧
  (∀ p st,
     transcript_inv (handleClear p st) ∧
     transcriptChunks (handleClear p st) = [] ∧
     fullTranscript (handleClear p st) = [] ∧
     analysisResult (handleClear p st) = [] ∧
     lastAnalyzedLength (handleClear p st) = 0).
Proof.
  split; [|split].
  - intros st Hreach. apply (wf_reachable apiKey st Hreach).
  - intros. now apply transcript_inv_processAudioChunk.
  - intros p st. split; [apply (wf_handleClear p st)|]. now repeat split.
Qed.

Lemma transcript_invariant_witness :
  let key := Some (lit "key") in
  let st :=
    step key (TranscriptionSettles 0 sample_read (Resolved (Some long_text)) 1 2)
      (after_first_clip key) in
  transcript_inv st ∧
  fullTranscript st = LF :: long_text ∧
  transcript_inv
    (processAudioChunk key sample_read (Resolved (Some (lit " Speaker 2: yes ")))
       3 4 [] sample_blob st).
Proof.
  intros key st.
  destruct (transcript_invariant key) as (Hreach & Hproc & _).
  assert (transcript_inv st) as Hinv
    by exact (Hreach _ (reach_step _ _ _ (after_first_clip_reachable key))).
  split; [exact Hinv|]. split; [vm_compute; reflexivity|].
  apply Hproc, Hinv.
Defined.

Section Pipeline.

Lemma transcribing_deliveries l st :
  transcribing (foldl (λ st e, deliver e st) st l) =
  transcribing st ++ Recorder.chunks_in l.
Proof.
  revert st. induction l as [|e l IH]; intros st; cbn.
  - now rewrite app_nil_r.
  - rewrite IH. destruct e; try reflexivity.
    + unfold deliver, onError.
      now destruct (includes message (lit "System audio blocked")).
    + cbn. now rewrite <- app_assoc.
Qed.

Lemma recorder_analysis_effect st :
  recorder (analysis_effect st) = recorder st.
Proof.
  unfold analysis_effect, triggerAnalysis.
  destruct (_ && _); [|reflexivity]. now destruct (_ || _).
Qed.

Lemma fullTranscript_triggerAnalysis st :
  fullTranscript (triggerAnalysis st) = fullTranscript st.
Proof. unfold triggerAnalysis. now destruct (_ || _). Qed.

Lemma fullTranscript_analysis_effect st :
  fullTranscript (analysis_effect st) = fullTranscript st.
Proof.
  unfold analysis_effect. destruct (_ && _); [|reflexivity].
  apply fullTranscript_triggerAnalysis.
Qed.

Lemma fullTranscript_with_recorder f st :
  fullTranscript (with_recorder f st) = fullTranscript st.
Proof. apply (with_recorder_same_core f st). Qed.

Lemma handleClear_idle p st : is_recording (handleClear p st) = false.
Proof.
  unfold handleClear, is_recording. cbn.
  destruct (Recorder.recordingState (recorder st)) eqn:Hrs;
    rewrite ?Hrs; try reflexivity.
  rewrite with_recorder_recorder.
  now destruct (RecorderFacts.stopRecording_state p (recorder st)) as [-> _].
Qed.

(** Every event but a clear extends the transcript. *)
Lemma handle_extends apiKey e st :
  (∀ p, e ≠ ClickClear p) →
  fullTranscript st `prefix_of` fullTranscript (handle apiKey e st).
Proof.
  intros Hclear. destruct e; cbn.
  - unfold handleToggleRecording. destruct (is_recording st);
      now rewrite ?fullTranscript_triggerAnalysis,
        fullTranscript_with_recorder.
  - now destruct (Hclear p).
  - reflexivity.
  - now rewrite fullTranscript_triggerAnalysis.
  - now rewrite fullTranscript_with_recorder.
  - now rewrite fullTranscript_with_recorder.
  - unfold transcription_settles.
    destruct (transcribing st !! k); [|reflexivity].
    unfold processAudioChunk.
    destruct (Service.transcribeAudio _ _ _ _) as [sent [text|err]].
    + destruct (negb (truthy text)); [reflexivity|]. cbn.
      now apply prefix_app_r.
    + now destruct (_ || _).
  - unfold analysis_settles. destruct (analyzing st); [reflexivity|].
    now destruct (Service.analyzeTranscript _ _ _) as [sent [result|err]].
Qed.

End Pipeline.

(** C4, as stated, fails: with no API key, a completed clip of positive size
    is taken off the recorder and its transcription settles without any
    request having been sent to the remote service. *)
Lemma clip_not_sent_without_key :
  let st := after_first_clip None in
  let st' :=
    step None
      (TranscriptionSettles 0 sample_read (Resolved (Some long_text)) 1 2) st in
  transcribing st = [sample_blob] ∧
  (0 < size sample_blob)%N ∧
  transcribing st' = [] ∧
  requests st' = [].
Proof. vm_compute. repeat split. Qed.

(** C4 (amended): every completed clip of positive size is handed to
    [onAudioChunk], and every clip so handed enters transcription; when the
    API key is set and the clip can be read, exactly one request carrying
    that clip is sent to the remote speech-to-text service.  A clip whose
    transcription is not empty appends exactly one chunk with that text to
    the chunk list and a line feed followed by the text to the transcript; a
    clip whose transcription is empty leaves both unchanged; and as long as
    an event leaves the recording on, the transcript before it is a prefix of
    the transcript after it. *)
Theorem clip_pipeline apiKey :
  (∀ p r s mr,
     Recorder.recorders s !! r = Some mr →
     let blob :=
       {| size := foldr N.add 0%N
                    (List.filter (λ sz, (0 <? sz)%N) (Recorder.recordedData p r));
          type := Recorder.mimeType mr |} in
     (0 < size blob)%N →
     Recorder.since s (Recorder.recorder_stop p r s) =
       [Recorder.RecorderStop r (Recorder.startedAt mr) (Recorder.now s);
        Recorder.OnAudioChunk blob]) ∧
  (∀ f st,
     (∃ new, Recorder.log (f (recorder st)) = Recorder.log (recorder st) ++ new) →
     transcribing (with_recorder f st) =
       transcribing st ++
       Recorder.chunks_in (Recorder.since (recorder st) (f (recorder st)))) ∧
  (∀ key k url remote d1 d2 st blob,
     key ≠ [] →
     transcribing st !! k = Some blob →
     requests (transcription_settles (Some key) k (Resolved url) remote d1 d2 st)
     = requests st ++
       [Service.TranscribeRequest Service.MODEL
          (if truthy (type blob) then type blob else lit "audio/webm")
          (split 44 url !! 1%nat)]) ∧
  (∀ k read remote d1 d2 st blob sent text,
     transcribing st !! k = Some blob →
     Service.transcribeAudio apiKey read remote blob = (sent, Returns text) →
     let st' := transcription_settles apiKey k read remote d1 d2 st in
     if truthy text then
       transcriptChunks st' =
         transcriptChunks st ++
         [{| id := toString d1; text := text; timestamp := d2;
             isFinal := true |}] ∧
       fullTranscript st' = fullTranscript st ++ LF :: text
     else
       transcriptChunks st' = transcriptChunks st ∧
       fullTranscript st' = fullTranscript st) ∧
  (∀ e st,
     is_recording (step apiKey e st) = true →
     fullTranscript st `prefix_of` fullTranscript (step apiKey e st)).
Proof.
  split; [|split; [|split; [|split]]].
  - intros p r s mr Hr blob Hpos. unfold Recorder.recorder_stop.
    rewrite Hr. fold blob. apply N.ltb_lt in Hpos. rewrite Hpos.
    apply RecorderFacts.since_app. destruct s. cbn. now rewrite <- app_assoc.
  - intros f st [new Hnew]. unfold with_recorder.
    rewrite transcribing_deliveries. cbn.
    unfold Recorder.since. now rewrite Hnew.
  - intros key k url remote d1 d2 st blob Hkey Hk.
    unfold transcription_settles. rewrite Hk.
    unfold processAudioChunk, Service.transcribeAudio.
    rewrite checkApiKey_set by now apply truthy_nonempty.
    cbn [Service.blobToBase64].
    destruct remote as [text|err]; cbn [requests set_requests].
    + now destruct (negb (truthy _)).
    + now destruct (_ || _).
  - intros k read remote d1 d2 st blob sent text Hk Hres st'. subst st'.
    unfold transcription_settles. rewrite Hk.
    unfold processAudioChunk. rewrite Hres.
    now destruct (truthy text).
  - intros e st Hrec. unfold step in *.
    rewrite fullTranscript_analysis_effect.
    apply handle_extends. intros p ->.
    unfold is_recording in Hrec. rewrite recorder_analysis_effect in Hrec.
    pose proof (handleClear_idle p st) as Hidle.
    unfold is_recording in Hidle. cbn [handle] in Hrec. congruence.
Qed.

Lemma clip_pipeline_witness :
  let key := Some (lit "key") in
  let st := after_first_clip key in
  let st' :=
    transcription_settles key 0 sample_read (Resolved (Some long_text)) 1 2 st in
  requests st' =
    [Service.TranscribeRequest Service.MODEL (lit "audio/webm;codecs=opus")
       (Some (lit "GkXfo59ChoEB"))] ∧
  fullTranscript st' = LF :: long_text.
Proof.
  intros key st st'.
  destruct (clip_pipeline key) as (_ & _ & Hsent & Htext & _).
  split.
  - apply (Hsent (lit "key") 0%nat
             (lit "data:audio/webm;codecs=opus;base64,GkXfo59ChoEB")
             (Resolved (Some long_text)) 1 2 st sample_blob).
    + discriminate.
    + vm_compute. reflexivity.
  - specialize (Htext 0%nat sample_read (Resolved (Some long_text)) 1 2 st
                  sample_blob
                  [Service.TranscribeRequest Service.MODEL
                     (lit "audio/webm;codecs=opus")
                     (Some (lit "GkXfo59ChoEB"))]
                  long_text).
    cbv zeta in Htext. destruct Htext as [_ Hfull].
    + vm_compute. reflexivity.
    + vm_compute. reflexivity.
    + exact Hfull.
Defined.

Section Storage.







End Storage.




(** * Further properties of the code *)

(** ** Trimming *)

Section TrimFacts.
Implicit Types s t : jsstr.

Lemma trimStart_suffix s : ∃ pre, s = pre ++ trimStart s ∧ blank pre = true.
Proof.
  induction s as [|c s (pre & Hs & Hpre)]; [now exists []|].
  cbn. destruct (is_space c) eqn:Hc.
  - exists (c :: pre). unfold blank in *. cbn. rewrite Hc, Hpre.
    split; [now rewrite <- Hs | reflexivity].
  - now exists [].
Qed.

Lemma trimStart_head s c r : trimStart s = c :: r → is_space c = false.
Proof.
  induction s as [|d s IH]; [discriminate|].
  cbn. destruct (is_space d) eqn:Hd; [exact IH|].
  now intros [= <- _].
Qed.

Lemma trimStart_fixed s c r : s = c :: r → is_space c = false → trimStart s = s.
Proof. intros -> Hc. cbn. now rewrite Hc. Qed.

Lemma trimEnd_prefix s : ∃ post, s = trimEnd s ++ post ∧ blank post = true.
Proof.
  unfold trimEnd.
  destruct (trimStart_suffix (reverse s)) as (pre & Hs & Hpre).
  exists (reverse pre). split; [|now rewrite blank_reverse].
  rewrite <- reverse_app, <- Hs. now rewrite reverse_involutive.
Qed.

(** A trimmed string does not begin with white space. *)
Lemma trim_head s c r : trim s = c :: r → is_space c = false.
Proof.
  unfold trim. intros H.
  destruct (trimEnd_prefix (trimStart s)) as (post & Hs & _).
  rewrite H in Hs. cbn in Hs. now apply trimStart_head in Hs.
Qed.

(** A trimmed string does not end with white space. *)
Lemma trim_last s c r : trim s = r ++ [c] → is_space c = false.
Proof.
  unfold trim, trimEnd. intros H.
  apply (f_equal reverse) in H.
  rewrite reverse_involutive, reverse_app in H. cbn in H.
  now apply trimStart_head in H.
Qed.

End TrimFacts.

(** ** More on the service wrappers *)

Section ServiceFacts.

Lemma split_no_sep sep (s : jsstr) : sep ∉ s → split sep s = [s].
Proof.
  induction s as [|c s IH]; [reflexivity|].
  intros Hnot. apply not_elem_of_cons in Hnot as [Hc Hs].
  cbn. destruct (N.eqb_spec c sep) as [->|_]; [congruence|].
  now rewrite IH.
Qed.

Lemma split_at_sep sep (h rest : jsstr) :
  sep ∉ h → split sep (h ++ sep :: rest) = h :: split sep rest.
Proof.
  induction h as [|c h IH]; intros Hnot; cbn.
  - now rewrite N.eqb_refl.
  - apply not_elem_of_cons in Hnot as [Hc Hh].
    destruct (N.eqb_spec c sep) as [->|_]; [congruence|].
    now rewrite IH.
Qed.

(** [blobToBase64] on a data URL gives the payload: what follows the first
    comma, when the payload itself has no comma; a result without any comma
    gives [undefined]. *)
Theorem blobToBase64_payload (header payload : jsstr) :
  44%N ∉ header →
  (44%N ∉ payload →
   blobToBase64 (Resolved (header ++ [44%N] ++ payload))
   = Resolved (Some payload)) ∧
  blobToBase64 (Resolved header) = Resolved None.
Proof.
  intros Hh. split.
  - intros Hp. unfold blobToBase64. cbn [app].
    now rewrite split_at_sep, split_no_sep.
  - unfold blobToBase64. now rewrite split_no_sep.
Qed.

Lemma blobToBase64_payload_witness :
  blobToBase64 sample_read = Resolved (Some (lit "GkXfo59ChoEB")) ∧
  blobToBase64 (Resolved (lit "data:")) = Resolved None.
Proof.
  destruct (blobToBase64_payload (lit "data:audio/webm;codecs=opus;base64")
              (lit "GkXfo59ChoEB")) as [H1 H2].
  - vm_compute. intros H. apply list_elem_of_In in H. cbn in H.
    repeat (destruct H as [H | H]; [discriminate|]). exact H.
  - split.
    + apply H1. vm_compute. intros H. apply list_elem_of_In in H. cbn in H.
      repeat (destruct H as [H | H]; [discriminate|]). exact H.
    + destruct (blobToBase64_payload (lit "data:") []) as [_ H3];
        [|exact H3].
      vm_compute. intros H. apply list_elem_of_In in H. cbn in H.
      repeat (destruct H as [H | H]; [discriminate|]). exact H.
Defined.

(** Whatever [transcribeAudio] returns was sent for in exactly one request,
    has no white space at either end, and is empty exactly when the response
    carried no text or only white space. *)
Theorem transcribeAudio_result apiKey read remote blob sent out :
  transcribeAudio apiKey read remote blob = (sent, Returns out) →
  List.length sent = 1%nat ∧
  (∀ c rest, out = c :: rest → is_space c = false) ∧
  (∀ c rest, out = rest ++ [c] → is_space c = false) ∧
  (out = [] ↔
   remote = Resolved None ∨ ∃ t, remote = Resolved (Some t) ∧ blank t = true).
Proof.
  unfold transcribeAudio.
  destruct (checkApiKey apiKey); [|discriminate].
  destruct (blobToBase64 read); [|discriminate].
  destruct remote as [[t|]|err]; intros [= <- <-].
  - split; [reflexivity|]. split; [apply trim_head|]. split; [apply trim_last|].
    split.
    + intros Hempty. right. exists t. split; [reflexivity|].
      pose proof (truthy_trim t) as H. rewrite Hempty in H. cbn in H.
      now destruct (blank t).
    + intros [[=] | (t' & [= <-] & Hb)].
      pose proof (truthy_trim t) as H. rewrite Hb in H.
      now destruct (trim t).
  - split; [reflexivity|]. split; [discriminate|].
    split; [intros c rest H; now destruct rest|].
    split; [now left | reflexivity].
Qed.

Lemma transcribeAudio_result_witness :
  (transcribeAudio (Some (lit "key")) sample_read
     (Resolved (Some (lit "  Speaker 1: hello  "))) sample_blob).2
  = Returns (lit "Speaker 1: hello") ∧
  is_space 83 = false ∧ is_space 111 = false.
Proof.
  pose proof (transcribeAudio_result (Some (lit "key")) sample_read
                (Resolved (Some (lit "  Speaker 1: hello  "))) sample_blob
                _ (lit "Speaker 1: hello") eq_refl) as (_ & Hhead & Hlast & _).
  split; [reflexivity|]. split.
  - apply (Hhead 83%N (lit "peaker 1: hello")). reflexivity.
  - apply (Hlast 111%N (lit "Speaker 1: hell")). reflexivity.
Defined.

(** With the API key set and a transcript that is not blank,
    [analyzeTranscript] sends one request carrying the whole transcript
    after the heading 'Current Transcript:' and two line feeds; it returns
    the text of the response (the empty string when there is none), and when
    the call fails it throws 'Analysis quota exceeded. Retrying later.' if
    [String(error)] contains 429 and 'Analysis failed.' otherwise. *)
Theorem analyzeTranscript_outcome key remote fullTranscript :
  key ≠ [] → blank fullTranscript = false →
  analyzeTranscript (Some key) remote fullTranscript =
    ([AnalyzeRequest MODEL
        (lit "Current Transcript:" ++ [LF; LF] ++ fullTranscript)],
     match remote with
     | Resolved (Some text) => Returns text
     | Resolved None => Returns []
     | Rejected error =>
         Throws (mkError
           (if includes (e_string error) (lit "429")
            then MSG_ANALYSIS_QUOTA else MSG_ANALYSIS_FAILED))
     end).
Proof.
  intros Hkey Hblank. unfold analyzeTranscript.
  rewrite checkApiKey_set by now apply truthy_nonempty.
  rewrite truthy_trim, Hblank. cbn [negb].
  now destruct remote as [[text|]|error].
Qed.

Lemma analyzeTranscript_outcome_witness :
  (analyzeTranscript (Some (lit "key")) (Rejected quota_error)
     (lit "Speaker 1: hello")).2 = Throws (mkError MSG_ANALYSIS_QUOTA).
Proof.
  rewrite (analyzeTranscript_outcome (lit "key") (Rejected quota_error)
             (lit "Speaker 1: hello")).
  - reflexivity.
  - discriminate.
  - reflexivity.
Defined.

End ServiceFacts.

(** ** More on the recorder hook *)

Module RecorderMore.
Import Recorder RecorderFacts.

Lemma stopped_in_app l k : stopped_in (l ++ k) = stopped_in l ++ stopped_in k.
Proof. apply omap_app. Qed.

Lemma segments_in_app l k :
  segments_in (l ++ k) = segments_in l ++ segments_in k.
Proof. apply omap_app. Qed.

Lemma stopped_in_stops tracks : stopped_in (TrackStop <$> tracks) = tracks.
Proof. induction tracks as [|t tracks IH]; [reflexivity | cbn; now f_equal]. Qed.

Lemma segments_in_stops tracks : segments_in (TrackStop <$> tracks) = [].
Proof. induction tracks as [|t tracks IH]; [reflexivity | exact IH]. Qed.

(** [stopRecording] written out: the refs are cleared, the state is IDLE,
    the clock and the timers are untouched, and the log gains the stop of
    the running recorder, the stop of every track held and the closing of
    the context. *)
Lemma stopRecording_fields p s :
  ∃ new,
    stopRecording p s =
      {| recordingState := IDLE; mediaRecorderRef := None;
         audioContextRef := None; streamTracksRef := [];
         isRecordingRef := false; now := now s;
         recorders := halted s;
         contexts :=
           match audioContextRef s with
           | Some c => <[c := true]> (contexts s)
           | None => contexts s
           end;
         timers := timers s;
         log := log s ++ new |} ∧
    stopped_in new = streamTracksRef s ∧
    segments_in new =
      match mediaRecorderRef s with
      | Some r =>
          match recorders s !! r with
          | Some mr => if recording mr then [(startedAt mr, now s)] else []
          | None => []
          end
      | None => []
      end ∧
    notices_in new = [] ∧
    (halted s = recorders s → audioContextRef s = None →
     streamTracksRef s = [] → new = []).
Proof.
  destruct s as [rs mref aref tracks flag t recs ctxs tms lg].
  unfold stopRecording, halted. rsimpl.
  assert (∀ r mr, recs !! r = Some mr → recording mr = true →
            <[r := {| mimeType := mimeType mr; recording := false;
                      startedAt := startedAt mr |}]> recs ≠ recs) as Hne.
  { intros r mr Hr Hrec Hsame.
    apply (f_equal (λ l, recording <$> l !! r)) in Hsame.
    rewrite list_lookup_insert_eq in Hsame by (now apply lookup_lt_Some in Hr).
    rewrite Hr in Hsame. cbn in Hsame. congruence. }
  destruct mref as [r|];
    [destruct (recs !! r) as [mr|] eqn:Hr;
     [destruct (recording mr) eqn:Hrec;
      [unfold recorder_stop; rsimpl; rewrite Hr; rsimpl;
       destruct (N.ltb 0 _); rsimpl|]|]|];
    rewrite stop_tracks_eq; rsimpl;
    destruct aref as [c|]; rsimpl; rewrite <- ?app_assoc;
    (eexists; split; [reflexivity|]);
    rewrite ?stopped_in_app, ?segments_in_app, ?notices_in_app,
      ?stopped_in_stops, ?segments_in_stops, ?notices_in_stops;
    cbn; rewrite ?app_nil_r;
    (split; [reflexivity|]); (split; [reflexivity|]); (split; [reflexivity|]);
    intros Hsame Ha Htr; try discriminate;
    try (exfalso; eapply Hne; eassumption);
    subst tracks; reflexivity.
Qed.

(** *** The fragments of [startChunkLoop] *)

(** A call of [startChunkLoop] that no handler interrupts is the function
    run from its first line to its last. *)
Lemma startChunkLoop_uninterrupted p props s :
  startChunkLoop p props s = uninterrupted p props s.
Proof.
  unfold startChunkLoop, uninterrupted, start_call.
  destruct (isRecordingRef s); [reflexivity|].
  destruct (displaySupported p); [|reflexivity].
  unfold resume, resume_display.
  destruct (displayMedia p) as [stream | err]; [|reflexivity].
  destruct (getAudioTracks stream); reflexivity.
Qed.

(** *** What holds under every interleaving *)

Lemma halted_recording s r mr :
  halted s !! r = Some mr → recording mr = true →
  recorders s !! r = Some mr ∧ mediaRecorderRef s ≠ Some r.
Proof.
  unfold halted. intros Hr Hrec.
  destruct (mediaRecorderRef s) as [r0|]; [|now split].
  destruct (recorders s !! r0) as [mr0|] eqn:H0.
  - destruct (recording mr0) eqn:Hrec0.
    + destruct (decide (r = r0)) as [->|Hne].
      * rewrite list_lookup_insert_eq in Hr
          by (now apply lookup_lt_Some in H0).
        injection Hr as <-. discriminate.
      * rewrite list_lookup_insert_ne in Hr by congruence.
        split; [exact Hr | congruence].
    + split; [exact Hr|]. intros [= ->]. congruence.
  - split; [exact Hr|]. intros [= ->]. congruence.
Qed.

Lemma halted_ref s r mr :
  mediaRecorderRef s = Some r → halted s !! r = Some mr →
  recording mr = false.
Proof.
  intros Href Hr. destruct (recording mr) eqn:Hrec; [exfalso|reflexivity].
  destruct (halted_recording s r mr Hr Hrec) as [_ Hne]. contradiction.
Qed.

Lemma halted_other s r :
  mediaRecorderRef s ≠ Some r → halted s !! r = recorders s !! r.
Proof.
  unfold halted. intros Hne.
  destruct (mediaRecorderRef s) as [r0|]; [|reflexivity].
  destruct (recorders s !! r0) as [mr0|]; [|reflexivity].
  destruct (recording mr0); [|reflexivity].
  apply list_lookup_insert_ne. congruence.
Qed.

Lemma hook_inv_emit props e s : hook_inv props s → hook_inv props (emit e s).
Proof. destruct s. intros H. exact H. Qed.

Lemma hook_inv_stops props tracks s :
  hook_inv props s →
  hook_inv props (foldl (λ s t, emit (TrackStop t) s) s tracks).
Proof.
  revert s. induction tracks as [|t tracks IH]; intros s H; cbn [foldl].
  - exact H.
  - now apply IH, hook_inv_emit.
Qed.

Lemma hook_inv_tracks props v s :
  hook_inv props s → hook_inv props (set_streamTracksRef v s).
Proof. destruct s. intros H. exact H. Qed.

Lemma hook_inv_new_context props s :
  hook_inv props s →
  hook_inv props
    (set_audioContextRef (Some (List.length (contexts s)))
       (emit (NewAudioContext (List.length (contexts s)))
          (set_contexts (contexts s ++ [false]) s))).
Proof.
  destruct s as [rs mref aref tracks flag t recs ctxs tms lg].
  intros (Ha & Hb & Hc & Hd). unfold hook_inv in *. rsimpl.
  split; [exact Ha|]. split; [exact Hb|]. split; [|exact Hd].
  intros c [= <-]. rewrite lookup_app_r by lia.
  now rewrite Nat.sub_diag.
Qed.

Lemma hook_inv_stop props p s :
  hook_inv props s → hook_inv props (stopRecording p s).
Proof.
  intros (_ & _ & _ & Hd).
  destruct (stopRecording_fields p s) as (new & -> & _).
  unfold hook_inv. rsimpl.
  split; [reflexivity|]. split; [reflexivity|]. split; [discriminate|].
  intros r mr Hr Hrec.
  destruct (halted_recording s r mr Hr Hrec) as [Hr' _]. eauto.
Qed.

Lemma hook_inv_start_failed props p err s :
  hook_inv props s → hook_inv props (start_failed p err s).
Proof.
  intros H. unfold start_failed.
  now apply hook_inv_stop, hook_inv_emit, hook_inv_emit.
Qed.

Lemma hook_inv_recordSegment props p ctx s :
  hook_inv props s → hook_inv props (recordSegment p props ctx s).1.
Proof.
  intros H. unfold recordSegment.
  destruct (isRecordingRef s) eqn:Hflag; cbn [negb]; [|exact H].
  destruct (default true (contexts s !! ctx)); [exact H|].
  destruct (mediaRecorderThrows p); [exact H|].
  destruct s as [rs mref aref tracks flag t recs ctxs tms lg].
  destruct H as (Ha & Hb & Hc & Hd). unfold hook_inv in *. rsimpl.
  split; [exact Ha|]. split; [congruence|].
  split; [exact Hc|].
  intros r mr Hr Hrec.
  destruct (decide (r < List.length recs)%nat) as [Hlt|Hge].
  - rewrite lookup_app_l in Hr by exact Hlt.
    destruct (Hd r mr Hr Hrec) as [c Hin]. exists c.
    apply elem_of_app. now left.
  - rewrite lookup_app_r in Hr by lia.
    destruct (r - List.length recs)%nat as [|k] eqn:Hk; [|now destruct k].
    injection Hr as <-. rsimpl. exists ctx.
    apply elem_of_app. right. apply list_elem_of_singleton.
    f_equal. lia.
Qed.

Lemma hook_inv_timer props p s :
  hook_inv props s → hook_inv props (timer_fires p props s).
Proof.
  intros H. unfold timer_fires.
  destruct (timers s) as [|tm rest] eqn:Htimers; [exact H|].
  set (s1 := set_now _ _).
  assert (recordingState s1 = (if isRecordingRef s1 then RECORDING else IDLE) ∧
          (isRecordingRef s1 = false → mediaRecorderRef s1 = None) ∧
          (∀ c, audioContextRef s1 = Some c → contexts s1 !! c = Some false) ∧
          (∀ r mr, recorders s1 !! r = Some mr → recording mr = true →
                   r ≠ timer_recorder tm →
                   ∃ c, {| due := startedAt mr + Z.max 0 (interval props);
                           timer_recorder := r; timer_context := c |}
                        ∈ timers s1) ∧
          timers s1 = rest) as (Ha & Hb & Hc & Hd & Hrest).
  { subst s1. destruct H as (Ha & Hb & Hc & Hd).
    destruct s as [rs mref aref tracks flag t recs ctxs tms lg].
    rsimpl. subst tms.
    split; [exact Ha|]. split; [exact Hb|]. split; [exact Hc|].
    split; [|reflexivity].
    intros r mr Hr Hrec Hne. destruct (Hd r mr Hr Hrec) as [c Hin].
    exists c. apply elem_of_cons in Hin as [Heq | Hin]; [|exact Hin].
    subst tm. now rsimpl. }
  clearbody s1. clear H Htimers s.
  assert (∀ mr, recorders s1 !! timer_recorder tm = Some mr →
                recording mr = false → hook_inv props s1) as Hidle.
  { intros mr Hr Hrec. split; [exact Ha|]. split; [exact Hb|].
    split; [exact Hc|]. intros r' mr' Hr' Hrec'. apply (Hd r' mr' Hr' Hrec').
    intros ->. congruence. }
  destruct (recorders s1 !! timer_recorder tm) as [mr|] eqn:Hr.
  - destruct (recording mr) eqn:Hrec; [|now apply (Hidle mr eq_refl)].
    assert (hook_inv props (recorder_stop p (timer_recorder tm) s1)) as Hstop.
    { unfold recorder_stop. rewrite Hr.
      destruct s1 as [rs mref aref tracks flag t recs ctxs tms lg].
      unfold hook_inv. rsimpl.
      assert (∀ r mr',
                <[timer_recorder tm := {| mimeType := mimeType mr;
                                          recording := false;
                                          startedAt := startedAt mr |}]> recs
                  !! r = Some mr' →
                recording mr' = true →
                ∃ c, {| due := startedAt mr' + Z.max 0 (interval props);
                        timer_recorder := r; timer_context := c |} ∈ tms)
        as Hd'.
      { intros r mr' Hr' Hrec'.
        destruct (decide (r = timer_recorder tm)) as [->|Hne].
        - rewrite list_lookup_insert_eq in Hr'
            by (now apply lookup_lt_Some in Hr).
          injection Hr' as <-. discriminate.
        - rewrite list_lookup_insert_ne in Hr' by congruence.
          now apply (Hd r mr' Hr' Hrec'). }
      destruct (N.ltb 0 _); rsimpl; now repeat split. }
    destruct (isRecordingRef (recorder_stop p (timer_recorder tm) s1));
      [|exact Hstop].
    now apply hook_inv_recordSegment.
  - split; [exact Ha|]. split; [exact Hb|]. split; [exact Hc|].
    intros r' mr' Hr' Hrec'. apply (Hd r' mr' Hr' Hrec').
    intros ->. congruence.
Qed.

Lemma hook_inv_start_call props p s :
  hook_inv props s → hook_inv props (start_call p s).1.
Proof.
  intros H. unfold start_call.
  destruct (isRecordingRef s) eqn:Hflag; [exact H|].
  assert (hook_inv props
            (setRecordingState RECORDING (set_isRecordingRef true s))) as H'.
  { destruct s as [rs mref aref tracks flag t recs ctxs tms lg].
    destruct H as (_ & _ & Hc & Hd). unfold hook_inv in *. rsimpl.
    split; [reflexivity|]. split; [discriminate|]. now split. }
  destruct (displaySupported p); cbn [fst]; now apply hook_inv_emit.
Qed.

Lemma hook_inv_resume_display props p s :
  hook_inv props s → hook_inv props (resume_display p s).1.
Proof.
  intros H. unfold resume_display.
  destruct (displayMedia p) as [stream | err].
  - destruct (getAudioTracks stream); cbn [fst];
      repeat first [ exact H | apply hook_inv_emit | apply hook_inv_stops ].
  - cbv beta iota zeta. cbn [fst].
    destruct (_ || _); [destruct (includes _ _)|];
      repeat first [ exact H | apply hook_inv_emit ].
Qed.

Lemma hook_inv_resume_mic props p screenStream usingScreenAudio s :
  hook_inv props s →
  hook_inv props (resume_mic p props screenStream usingScreenAudio s).
Proof.
  intros H. unfold resume_mic.
  assert (∀ e, hook_inv props (emit e s)) as He
    by (intros e; now apply hook_inv_emit).
  destruct (userMedia p) as [mic | micErr]; cbv beta iota zeta;
    (destruct (negb usingScreenAudio && negb (present _));
     [ now apply hook_inv_stop, hook_inv_emit | ]);
    (destruct (audioContextThrows p) as [err|];
     [ now apply hook_inv_start_failed | ]);
    match goal with
    | |- context [recordSegment ?a ?b ?c ?d] =>
        assert (hook_inv props d) as Hd;
        [ destruct screenStream as [stream|];
          [destruct usingScreenAudio|]; cbn [default];
          repeat first
            [ apply hook_inv_new_context; first [exact H | apply He]
            | apply hook_inv_tracks
            | apply hook_inv_emit ]
        | pose proof (hook_inv_recordSegment props a c d Hd) as Hseg;
          destruct (recordSegment a b c d) as [s' [err|]]; cbn [fst] in Hseg;
          [ now apply hook_inv_start_failed | exact Hseg ] ]
    end.
Qed.

Lemma hook_inv_resume props p k s :
  hook_inv props s → hook_inv props (resume p props k s).1.
Proof.
  intros H. destruct k as [|screenStream usingScreenAudio]; cbn [resume].
  - pose proof (hook_inv_resume_display props p s H) as H'.
    now destruct (resume_display p s).
  - now apply hook_inv_resume_mic.
Qed.

Lemma reachable_hook_inv props h :
  reachable props h → hook_inv props (current h).
Proof.
  induction 1 as [|op h _ IH].
  - unfold hook_inv. cbn. split; [reflexivity|]. split; [reflexivity|].
    split; [discriminate|]. intros r mr Hr. now destruct r.
  - destruct op as [p | i p | p | p | p]; cbn [run_op].
    + pose proof (hook_inv_start_call props p _ IH) as H'.
      now destruct (start_call p (current h)).
    + destruct (suspended h !! i) as [k|]; [|exact IH].
      pose proof (hook_inv_resume props p k _ IH) as H'.
      now destruct (resume p props k (current h)).
    + now apply hook_inv_stop.
    + now apply hook_inv_timer.
    + now apply hook_inv_stop.
Qed.

Lemma resume_display_awaits p s :
  ∃ screenStream usingScreenAudio,
    (resume_display p s).2 = AwaitUserMedia screenStream usingScreenAudio.
Proof.
  unfold resume_display.
  destruct (displayMedia p) as [stream | err]; [|now eexists _, _].
  destruct (getAudioTracks stream); now eexists _, _.
Qed.

(** A call that no handler interrupts takes a hook with no call in flight
    to a hook with no call in flight. *)
Lemma reach_uninterrupted props p h :
  reachable props h → suspended h = [] →
  reachable props
    {| current := uninterrupted p props (current h); suspended := [] |}.
Proof.
  intros Hreach Hnone. unfold uninterrupted.
  pose proof (reach_op props (Start p) h Hreach) as H1.
  cbn [run_op] in H1. rewrite Hnone in H1.
  destruct (start_call p (current h)) as [s1 [k1|]]; cbn [app] in H1;
    [|exact H1].
  pose proof (reach_op props (Settle 0 p) _ H1) as H2.
  cbn [run_op suspended current lookup list_lookup] in H2.
  destruct k1 as [|screenStream usingScreenAudio]; cbn [resume] in *.
  - pose proof (resume_display_awaits p s1) as (a & b & Hk).
    destruct (resume_display p s1) as [s2 k2]. cbn [snd] in Hk. subst k2.
    cbn [insert list_insert] in H2.
    pose proof (reach_op props (Settle 0 p) _ H2) as H3.
    cbn [run_op suspended current lookup list_lookup resume delete
         list_delete] in H3.
    exact H3.
  - cbn [delete list_delete] in H2. exact H2.
Qed.

(** [stopRecording] is idempotent: a second call, on whatever platform,
    changes nothing, not even the log. *)
Theorem stopRecording_idempotent p p' s :
  stopRecording p' (stopRecording p s) = stopRecording p s.
Proof.
  destruct (stopRecording_fields p s) as (new & -> & _).
  match goal with |- stopRecording p' ?e = _ =>
    destruct (stopRecording_fields p' e) as (new' & -> & _ & _ & _ & Hnil)
  end.
  rewrite Hnil by reflexivity. rsimpl. unfold halted. rsimpl.
  now rewrite app_nil_r.
Qed.

(** When a running chunk loop is stopped, the clip in progress is completed
    at the instant of the stop, and the timeout still pending for its
    recorder is dead: when it fires nothing is recorded, stopped or handed
    over, and the hook stays idle. *)
Theorem timer_after_stop_is_dead props p p' s a :
  chunking props s a →
  segments (stopRecording p s) = segments s ++ [(a, now s)] ∧
  log (timer_fires p' props (stopRecording p s)) = log (stopRecording p s) ∧
  recorders (timer_fires p' props (stopRecording p s))
  = recorders (stopRecording p s) ∧
  isRecordingRef (timer_fires p' props (stopRecording p s)) = false ∧
  timers (timer_fires p' props (stopRecording p s)) = [].
Proof.
  intros (Hflag & Hnow & r & c & mime & Href & Hrec & Htimers & Hctx).
  destruct (stopRecording_fields p s) as (new & Heq & _ & Hseg & _).
  rewrite Href, Hrec in Hseg. cbn in Hseg.
  rewrite Heq. split.
  - unfold segments. rsimpl. change (omap _ ?l) with (segments_in l).
    now rewrite segments_in_app, Hseg.
  - unfold timer_fires. rsimpl. rewrite Htimers. rsimpl.
    unfold halted. rewrite Href, Hrec. rsimpl.
    rewrite list_lookup_insert_eq by (now apply lookup_lt_Some in Hrec).
    rsimpl. now repeat split.
Qed.

Lemma timer_after_stop_is_dead_witness :
  let props := App.recorderProps (App.init ∅) in
  let s := startChunkLoop mic_only props init in
  segments (stopRecording mic_only s) = [(0, 0)] ∧
  log (timer_fires mic_only props (stopRecording mic_only s))
  = log (stopRecording mic_only s).
Proof.
  intros props s.
  destruct (timer_after_stop_is_dead props mic_only mic_only s 0)
    as (H1 & H2 & _).
  - split; [reflexivity|]. split; [vm_compute; discriminate|].
    exists 0%nat, 0%nat, (lit "audio/webm;codecs=opus"). repeat split.
  - split; [exact H1 | exact H2].
Defined.

(** Decide every branch of a run of [startChunkLoop] on an idle hook, the
    run being the right-hand side of the equation [H]. *)
Ltac start_branches H :=
  unfold startChunkLoop in H;
  cbn [isRecordingRef displaySupported displayMedia userMedia
       audioContextThrows] in H;
  match type of H with
  | context [if ?sup then _ else _] => destruct sup
  end;
  [ match type of H with
    | context [match ?dm with Resolved _ => _ | Rejected _ => _ end] =>
        destruct dm as [?stream | ?err]
    end;
    [ match type of H with
      | context [getAudioTracks ?st] =>
          destruct (getAudioTracks st) as [|?track ?others] eqn:?Haudio
      end; [rewrite stop_tracks_eq in H|]
    | match type of H with
      | context [includes ?e (lit "permissions policy")] =>
          destruct (includes e (lit "permissions policy")),
            (includes e (lit "denied"))
      end; cbn [orb] in H ]
  | ];
  rsimpl;
  match type of H with
  | context [match ?um with Resolved _ => _ | Rejected _ => _ end] =>
      destruct um as [?mic | ?micErr]
  end;
  rsimpl; cbn [present] in H; rsimpl;
  try (match type of H with
       | context [match ?c with Some _ => _ | None => _ end] =>
           destruct c as [?ctxErr|];
           [ unfold start_failed in H; rsimpl
           | unfold recordSegment in H; rsimpl;
             cbn [mediaRecorderThrows] in H;
             rewrite lookup_app_r in H by lia; rewrite Nat.sub_diag in H;
             cbn [lookup list_lookup] in H; rsimpl;
             match type of H with
             | context [match ?c' with Some _ => _ | None => _ end] =>
                 destruct c' as [?recErr|];
                 [ unfold start_failed in H; rsimpl | rsimpl ]
             end ]
       end).

(** In every state of the hook, whatever handler ran during the awaits of
    another: the React state says RECORDING exactly when the recording flag
    is set; while the flag is clear [mediaRecorderRef] is empty; the audio
    context [audioContextRef] points to is open; and every recorder that
    records has its timeout pending, due one interval after its start, so
    that none records for longer. *)
Theorem hook_invariant props h :
  reachable props h →
  (recordingState (current h) = RECORDING ↔ isRecordingRef (current h) = true) ∧
  (isRecordingRef (current h) = false → mediaRecorderRef (current h) = None) ∧
  (∀ c, audioContextRef (current h) = Some c →
        contexts (current h) !! c = Some false) ∧
  (∀ r mr, recorders (current h) !! r = Some mr → recording mr = true →
           ∃ t, t ∈ timers (current h) ∧ timer_recorder t = r ∧
                due t = startedAt mr + Z.max 0 (interval props)).
Proof.
  intros Hreach.
  destruct (reachable_hook_inv props h Hreach) as (Ha & Hb & Hc & Hd).
  split; [|split; [exact Hb | split; [exact Hc|]]].
  - rewrite Ha. destruct (isRecordingRef (current h)); split; congruence.
  - intros r mr Hr Hrec. destruct (Hd r mr Hr Hrec) as [c Hin].
    eexists. split; [exact Hin|]. now split.
Qed.

Lemma hook_invariant_witness :
  let props := App.recorderProps (App.init ∅) in
  let h :=
    run_op props (Settle 0 mic_only)
      (run_op props (Settle 0 mic_only)
         (run_op props (Settle 0 mic_only)
            (run_op props (Start mic_only)
               (run_op props (Stop mic_only)
                  (run_op props (Settle 0 mic_only)
                     (run_op props (Start mic_only) mounted)))))) in
  recordingState (current h) = RECORDING ∧
  contexts (current h) !! 1%nat = Some false.
Proof.
  intros props h.
  assert (reachable props h) as Hreach
    by (repeat apply reach_op; apply reach_init).
  destruct (hook_invariant props h Hreach) as (Hstate & _ & Hopen & _).
  split.
  - apply Hstate. vm_compute. reflexivity.
  - apply Hopen. vm_compute. reflexivity.
Defined.

(** [stopRecording], in whatever state the hook is: the state is IDLE and
    the flag cleared, the three refs are emptied, the recorder the ref
    pointed to no longer records while every other recorder is left as it
    was, each track that was held is stopped, once and in order, the audio
    context that was held counts as closed while every other is left as it
    was, [onError] is not called, and neither the clock nor the pending
    timeouts are touched. *)
Theorem stopRecording_releases p s :
  recordingState (stopRecording p s) = IDLE ∧
  isRecordingRef (stopRecording p s) = false ∧
  mediaRecorderRef (stopRecording p s) = None ∧
  audioContextRef (stopRecording p s) = None ∧
  streamTracksRef (stopRecording p s) = [] ∧
  (∀ r mr, mediaRecorderRef s = Some r →
           recorders (stopRecording p s) !! r = Some mr →
           recording mr = false) ∧
  (∀ r, mediaRecorderRef s ≠ Some r →
        recorders (stopRecording p s) !! r = recorders s !! r) ∧
  stopped_in (since s (stopRecording p s)) = streamTracksRef s ∧
  (∀ c, audioContextRef s = Some c →
        default true (contexts (stopRecording p s) !! c) = true) ∧
  (∀ c, audioContextRef s ≠ Some c →
        contexts (stopRecording p s) !! c = contexts s !! c) ∧
  notices_in (since s (stopRecording p s)) = [] ∧
  timers (stopRecording p s) = timers s ∧
  now (stopRecording p s) = now s.
Proof.
  destruct (stopRecording_fields p s) as (new & Heq & Hstop & _ & Hnote & _).
  rewrite (since_app s _ new) by now rewrite Heq.
  rewrite Heq. rsimpl. repeat split; try assumption.
  - intros r mr. apply halted_ref.
  - apply halted_other.
  - intros c ->.
    destruct (decide (c < List.length (contexts s))%nat) as [Hlt|Hge].
    + now rewrite list_lookup_insert_eq.
    + rewrite list_insert_ge by lia. now rewrite lookup_ge_None_2 by lia.
  - intros c Hne. destruct (audioContextRef s) as [c0|]; [|reflexivity].
    apply list_lookup_insert_ne. congruence.
Qed.

(** [startChunkLoop] resumed after [getUserMedia] while the recording flag
    is clear, written out. *)
Lemma resume_mic_flag_clear p props screenStream usingScreenAudio mic s :
  isRecordingRef s = false → userMedia p = Resolved mic →
  audioContextThrows p = None →
  ∃ new,
    resume_mic p props screenStream usingScreenAudio s =
      {| recordingState := recordingState s;
         mediaRecorderRef := mediaRecorderRef s;
         audioContextRef := Some (List.length (contexts s));
         streamTracksRef := default [] screenStream ++ mic;
         isRecordingRef := false; now := now s;
         recorders := recorders s;
         contexts := contexts s ++ [false];
         timers := timers s;
         log := log s ++ new |} ∧
    stopped_in new = [] ∧ notices_in new = [].
Proof.
  intros Hflag Hmic Hctx.
  destruct s as [rs mref aref tracks flag t recs ctxs tms lg].
  cbn in Hflag. subst flag.
  unfold resume_mic. rewrite Hmic, Hctx. cbv beta iota zeta.
  cbn [present negb andb]. rewrite andb_false_r.
  unfold recordSegment.
  destruct screenStream as [stream|]; [destruct usingScreenAudio|];
    rsimpl; rewrite <- ?app_assoc;
    (eexists; split; [reflexivity|]); now split.
Qed.

(** A call of [startRecording] is not cancelled by [stopRecording]: when it
    is resumed after [getUserMedia] with the recording flag clear, as after
    a stop during the permission prompt, and the microphone was granted, it
    still creates and keeps an audio context and stores the tracks it
    obtained, none of which it stops.  The hook is then idle, with no
    recorder and no timeout added and nothing reported, while it holds an
    open audio context and live tracks. *)
Theorem resumed_after_stop_keeps_capture
    props h i p screenStream usingScreenAudio mic :
  reachable props h →
  suspended h !! i = Some (AwaitUserMedia screenStream usingScreenAudio) →
  isRecordingRef (current h) = false →
  userMedia p = Resolved mic →
  audioContextThrows p = None →
  let s := current h in
  let s' := current (run_op props (Settle i p) h) in
  recordingState s' = IDLE ∧ isRecordingRef s' = false ∧
  mediaRecorderRef s' = None ∧
  streamTracksRef s' = default [] screenStream ++ mic ∧
  audioContextRef s' = Some (List.length (contexts s)) ∧
  contexts s' !! List.length (contexts s) = Some false ∧
  recorders s' = recorders s ∧ timers s' = timers s ∧
  stopped_in (since s s') = [] ∧ notices_in (since s s') = [] ∧
  suspended (run_op props (Settle i p) h) = delete i (suspended h).
Proof.
  intros Hreach Hsusp Hflag Hmic Hctx s s'.
  destruct (reachable_hook_inv props h Hreach) as (Ha & Hb & _).
  fold s in Ha, Hb, Hflag. rewrite Hflag in Ha. specialize (Hb Hflag).
  destruct (resume_mic_flag_clear p props screenStream usingScreenAudio mic s
              Hflag Hmic Hctx) as (new & Heq & Hstopped & Hnotes).
  assert (run_op props (Settle i p) h =
          {| current := resume_mic p props screenStream usingScreenAudio s;
             suspended := delete i (suspended h) |}) as Hrun.
  { cbn [run_op]. rewrite Hsusp. reflexivity. }
  subst s'. rewrite Hrun. cbn [current suspended].
  rewrite (since_app s _ new) by now rewrite Heq.
  rewrite Heq. rsimpl.
  repeat split; try assumption.
  rewrite lookup_app_r by lia. now rewrite Nat.sub_diag.
Qed.

Lemma resumed_after_stop_keeps_capture_witness :
  let props := App.recorderProps (App.init ∅) in
  let h :=
    run_op props (Stop mic_only)
      (run_op props (Settle 0 mic_only)
         (run_op props (Start mic_only) mounted)) in
  let s' := current (run_op props (Settle 0 mic_only) h) in
  recordingState s' = IDLE ∧ streamTracksRef s' = mic_stream ∧
  audioContextRef s' = Some 0%nat.
Proof.
  intros props h s'.
  assert (reachable props h) as Hreach
    by (repeat apply reach_op; apply reach_init).
  destruct (resumed_after_stop_keeps_capture props h 0 mic_only None false
              mic_stream Hreach eq_refl eq_refl eq_refl eq_refl)
    as (H1 & _ & _ & H4 & H5 & _).
  split; [exact H1|]. split; [exact H4 | exact H5].
Defined.

(** After a run of [startChunkLoop] that no handler interrupts, on a hook
    that is idle and holds no track, and in which the audio context could be
    created, every track obtained from the browser has been stopped or is
    held in [streamTracksRef]; a following [stopRecording] therefore leaves
    exactly the tracks obtained stopped, each once. *)
Theorem start_tracks_accounted props p p' s :
  isRecordingRef s = false → streamTracksRef s = [] →
  audioContextThrows p = None →
  (∃ pre, log (startChunkLoop p props s) = log s ++ pre ∧
          stopped_in pre ++ streamTracksRef (startChunkLoop p props s)
          = acquired p) ∧
  stopped_in (since s (stopRecording p' (startChunkLoop p props s)))
  = acquired p.
Proof.
  intros Hflag Htracks Hctx.
  assert (∃ pre, log (startChunkLoop p props s) = log s ++ pre ∧
                 stopped_in pre ++ streamTracksRef (startChunkLoop p props s)
                 = acquired p) as (pre & Hlog & Hacc).
  { destruct p as [sup dm um ctxThrows recThrows opus mp4 data].
    destruct s as [rs mref aref tracks flag t recs ctxs tms lg].
    cbn in Hflag, Htracks, Hctx. subst flag tracks.
    unfold acquired. cbn [displaySupported displayMedia userMedia].
    remember (startChunkLoop _ _ _) as s' eqn:Hs'.
    start_branches Hs'; try discriminate Hctx;
      try match type of Hs' with
          | _ = stopRecording ?P ?s0 =>
              destruct (stopRecording_fields P s0) as (new & Heq & Hst & _);
              rewrite Heq in Hs'; rsimpl
          end;
      subst s'; rsimpl; rewrite <- ?app_assoc;
      (eexists; split; [reflexivity|]);
      rewrite ?stopped_in_app, ?stopped_in_stops, ?Hst;
      cbn; rewrite ?app_nil_r; reflexivity. }
  split; [eauto|].
  destruct (stopRecording_fields p' (startChunkLoop p props s))
    as (new & Heq & Hst & _).
  rewrite (since_app s _ (pre ++ new)) by now rewrite Heq, Hlog, app_assoc.
  now rewrite stopped_in_app, Hst.
Qed.

Lemma start_tracks_accounted_witness :
  let props := App.recorderProps (App.init ∅) in
  stopped_in
    (since init (stopRecording mic_only (startChunkLoop mic_only props init)))
  = mic_stream.
Proof.
  intros props.
  destruct (start_tracks_accounted props mic_only mic_only init
              eq_refl eq_refl eq_refl) as [_ H].
  exact H.
Defined.

Lemma chunks_in_app l k : chunks_in (l ++ k) = chunks_in l ++ chunks_in k.
Proof. apply omap_app. Qed.

Lemma chunks_in_stops tracks : chunks_in (TrackStop <$> tracks) = [].
Proof. induction tracks as [|t tracks IH]; [reflexivity | exact IH]. Qed.

Lemma mime_inv_recorder_stop p r s :
  mime_inv s → mime_inv (recorder_stop p r s).
Proof.
  intros [Hrecs Hchunks]. unfold recorder_stop.
  destruct (recorders s !! r) as [mr|] eqn:Hr; [|now split].
  assert (mimeType mr ∈ MIME_TYPES) as Hmr.
  { rewrite Forall_forall in Hrecs. apply Hrecs.
    now apply list_elem_of_lookup_2 in Hr. }
  destruct s as [rs mref aref tracks flag t recs ctxs tms lg].
  unfold mime_inv in *. rsimpl.
  destruct (N.ltb 0 _) eqn:Hsz; rsimpl.
  - apply N.ltb_lt in Hsz. split; [now apply Forall_insert|].
    rewrite !chunks_in_app, !Forall_app. cbn.
    split; [split; [exact Hchunks | constructor]|].
    constructor; [now split | constructor].
  - split; [now apply Forall_insert|].
    rewrite !chunks_in_app. cbn. now rewrite app_nil_r.
Qed.

Lemma mime_inv_same s s' :
  recorders s' = recorders s → chunks_in (log s') = chunks_in (log s) →
  mime_inv s → mime_inv s'.
Proof. unfold mime_inv. intros -> ->. tauto. Qed.

Lemma mime_inv_stop p s : mime_inv s → mime_inv (stopRecording p s).
Proof.
  intros Hinv. unfold stopRecording.
  set (s1 := set_isRecordingRef false s).
  assert (mime_inv s1) as H1.
  { revert Hinv. apply mime_inv_same; now destruct s. }
  clearbody s1. clear Hinv s.
  set (s2 := match mediaRecorderRef s1 with Some _ => _ | None => _ end).
  assert (mime_inv s2) as H2.
  { subst s2. destruct (mediaRecorderRef s1) as [r|]; [|exact H1].
    destruct (recorders s1 !! r) as [mr|]; [|exact H1].
    destruct (recording mr); [now apply mime_inv_recorder_stop | exact H1]. }
  clearbody s2. clear H1 s1.
  destruct s2 as [rs mref aref tracks flag t recs ctxs tms lg].
  rsimpl. rewrite stop_tracks_eq. rsimpl.
  destruct aref as [c|]; rsimpl; revert H2; apply mime_inv_same; rsimpl;
    rewrite ?chunks_in_app, ?chunks_in_stops; cbn;
    now rewrite ?app_nil_r.
Qed.

Lemma mime_inv_recordSegment p props ctx s :
  mime_inv s → mime_inv (recordSegment p props ctx s).1.
Proof.
  intros [Hrecs Hchunks]. unfold recordSegment.
  destruct (negb (isRecordingRef s)); [now split|].
  destruct (default true (contexts s !! ctx)); [now split|].
  destruct (mediaRecorderThrows p); [now split|].
  destruct s as [rs mref aref tracks flag t recs ctxs tms lg].
  unfold mime_inv in *. rsimpl. split.
  - apply Forall_app. split; [exact Hrecs|]. constructor; [|constructor].
    rsimpl. unfold MIME_TYPES.
    destruct (opusSupported p); [set_solver|].
    destruct (mp4Supported p); set_solver.
  - rewrite chunks_in_app. cbn. now rewrite app_nil_r.
Qed.

Lemma mime_inv_timer p props s : mime_inv s → mime_inv (timer_fires p props s).
Proof.
  intros Hinv. unfold timer_fires.
  destruct (timers s) as [|tm rest]; [exact Hinv|].
  set (s1 := set_now _ _).
  assert (mime_inv s1) as H1.
  { revert Hinv. apply mime_inv_same; now destruct s. }
  clearbody s1.
  destruct (recorders s1 !! timer_recorder tm) as [mr|]; [|exact H1].
  destruct (recording mr); [|exact H1].
  destruct (isRecordingRef _).
  - now apply mime_inv_recordSegment, mime_inv_recorder_stop.
  - now apply mime_inv_recorder_stop.
Qed.

Lemma mime_inv_emit e s :
  chunks_in [e] = [] → mime_inv s → mime_inv (emit e s).
Proof.
  intros He. apply mime_inv_same; destruct s; rsimpl; [reflexivity|].
  now rewrite chunks_in_app, He, app_nil_r.
Qed.

Lemma mime_inv_stops tracks s :
  mime_inv s → mime_inv (foldl (λ s t, emit (TrackStop t) s) s tracks).
Proof.
  revert s. induction tracks as [|t tracks IH]; intros s H; cbn [foldl].
  - exact H.
  - apply IH, mime_inv_emit; [reflexivity | exact H].
Qed.

Lemma mime_inv_refs s s' :
  recorders s' = recorders s → log s' = log s → mime_inv s → mime_inv s'.
Proof. intros Hr Hl. apply mime_inv_same; [exact Hr | now rewrite Hl]. Qed.

Lemma mime_inv_start_failed p err s :
  mime_inv s → mime_inv (start_failed p err s).
Proof.
  intros H. unfold start_failed. apply mime_inv_stop.
  do 2 (apply mime_inv_emit; [reflexivity|]). exact H.
Qed.

Lemma mime_inv_start_call p s : mime_inv s → mime_inv (start_call p s).1.
Proof.
  intros H. unfold start_call.
  destruct (isRecordingRef s); [exact H|].
  assert (mime_inv (setRecordingState RECORDING (set_isRecordingRef true s)))
    as H' by (revert H; apply mime_inv_refs; now destruct s).
  destruct (displaySupported p); cbn [fst];
    (apply mime_inv_emit; [reflexivity | exact H']).
Qed.

Lemma mime_inv_resume_display p s :
  mime_inv s → mime_inv (resume_display p s).1.
Proof.
  intros H. unfold resume_display.
  destruct (displayMedia p) as [stream | err].
  - destruct (getAudioTracks stream); cbn [fst];
      repeat first
        [ exact H | apply mime_inv_emit; [reflexivity|]
        | apply mime_inv_stops ].
  - cbv beta iota zeta. cbn [fst].
    destruct (_ || _); [destruct (includes _ _)|];
      repeat first [ exact H | apply mime_inv_emit; [reflexivity|] ].
Qed.

Lemma mime_inv_resume_mic p props screenStream usingScreenAudio s :
  mime_inv s → mime_inv (resume_mic p props screenStream usingScreenAudio s).
Proof.
  intros H. unfold resume_mic.
  assert (∀ e, chunks_in [e] = [] → mime_inv (emit e s)) as He
    by (intros e Hc; now apply mime_inv_emit).
  destruct (userMedia p) as [mic | micErr]; cbv beta iota zeta;
    (destruct (negb usingScreenAudio && negb (present _));
     [ apply mime_inv_stop, mime_inv_emit; [reflexivity|];
       first [exact H | now apply He] | ]);
    (destruct (audioContextThrows p) as [err|];
     [ apply mime_inv_start_failed; first [exact H | now apply He] | ]);
    match goal with
    | |- context [recordSegment ?a ?b ?c ?d] =>
        assert (mime_inv d) as Hd;
        [ destruct screenStream as [stream|];
          [destruct usingScreenAudio|]; cbn [default];
          repeat first
            [ exact H
            | now apply He
            | apply mime_inv_emit; [reflexivity|]
            | match goal with
              | |- mime_inv (set_streamTracksRef ?v ?x) =>
                  apply (mime_inv_refs x); [now destruct x .. |]
              | |- mime_inv (set_audioContextRef ?v ?x) =>
                  apply (mime_inv_refs x); [now destruct x .. |]
              | |- mime_inv (set_contexts ?v ?x) =>
                  apply (mime_inv_refs x); [now destruct x .. |]
              end ]
        | pose proof (mime_inv_recordSegment a b c d Hd) as Hseg;
          destruct (recordSegment a b c d) as [s' [err|]]; cbn [fst] in Hseg;
          [ now apply mime_inv_start_failed | exact Hseg ] ]
    end.
Qed.

Lemma reachable_mime_inv props h : reachable props h → mime_inv (current h).
Proof.
  induction 1 as [|op h _ IH].
  - split; constructor.
  - destruct op as [p | i p | p | p | p]; cbn [run_op].
    + pose proof (mime_inv_start_call p _ IH) as H'.
      now destruct (start_call p (current h)).
    + destruct (suspended h !! i) as [k|]; [|exact IH].
      destruct k as [|screenStream usingScreenAudio]; cbn [resume].
      * pose proof (mime_inv_resume_display p _ IH) as H'.
        now destruct (resume_display p (current h)).
      * now apply mime_inv_resume_mic.
    + now apply mime_inv_stop.
    + now apply mime_inv_timer.
    + now apply mime_inv_stop.
Qed.

(** Every clip the hook hands to [onAudioChunk] has a positive size and
    carries one of the three MIME types [recordSegment] chooses from, so
    [transcribeAudio] sends it under its own type and never needs the
    'audio/webm' it falls back to for a clip without a type. *)
Theorem clips_carry_mime_type props h blob :
  reachable props h → blob ∈ chunks_in (log (current h)) →
  (0 < size blob)%N ∧ type blob ∈ MIME_TYPES ∧
  ∀ key url remote,
    key ≠ [] →
    (Service.transcribeAudio (Some key) (Resolved url) remote blob).1
    = [Service.TranscribeRequest Service.MODEL (type blob)
         (split 44 url !! 1%nat)].
Proof.
  intros Hreach Hin.
  destruct (reachable_mime_inv props h Hreach) as [_ Hchunks].
  rewrite Forall_forall in Hchunks. destruct (Hchunks blob Hin) as [Hsz Hty].
  split; [exact Hsz|]. split; [exact Hty|].
  intros key url remote Hkey. unfold Service.transcribeAudio.
  rewrite checkApiKey_set by now apply truthy_nonempty.
  cbn [Service.blobToBase64].
  assert (truthy (type blob) = true) as ->.
  { unfold MIME_TYPES in Hty.
    repeat (apply elem_of_cons in Hty as [-> | Hty]; [reflexivity|]).
    now apply not_elem_of_nil in Hty. }
  now destruct remote.
Qed.

Lemma clips_carry_mime_type_witness :
  let props := App.recorderProps (App.init ∅) in
  let h :=
    run_op props (Tick mic_only)
      (run_op props (Settle 0 mic_only)
         (run_op props (Settle 0 mic_only)
            (run_op props (Start mic_only) mounted))) in
  sample_blob ∈ chunks_in (log (current h)) ∧ type sample_blob ∈ MIME_TYPES.
Proof.
  intros props h.
  assert (sample_blob ∈ chunks_in (log (current h))) as Hin
    by (vm_compute; left).
  assert (reachable props h) as Hreach
    by (repeat apply reach_op; apply reach_init).
  destruct (clips_carry_mime_type props h sample_blob Hreach Hin)
    as (_ & Hty & _).
  split; [exact Hin | exact Hty].
Defined.

(** When neither source can be captured, the last thing the hook tells its
    caller is that neither could be accessed. *)
Lemma start_no_source_notice p props s :
  isRecordingRef s = false → system_audio_available p = false →
  (∃ e, userMedia p = Rejected e) →
  recordingState (startChunkLoop p props s) = IDLE ∧
  ∃ new, log (startChunkLoop p props s) = log s ++ new ∧
         last (notices_in new) = Some (MSG_NO_SOURCE, error).
Proof.
  intros Hflag Havail [e Hmic].
  destruct p as [sup dm um ctxThrows recThrows opus mp4 data].
  destruct s as [rs mref aref tracks flag t recs ctxs tms lg].
  unfold system_audio_available in Havail.
  cbn in Hflag, Havail, Hmic. subst flag um.
  remember (startChunkLoop _ _ _) as s' eqn:Hs'.
  unfold startChunkLoop in Hs'.
  cbn [isRecordingRef displaySupported displayMedia userMedia
       audioContextThrows] in Hs'.
  destruct sup; [destruct dm as [stream | err]|].
  - destruct (getAudioTracks stream) as [|track others]; [|discriminate].
    rewrite stop_tracks_eq in Hs'. rsimpl. cbn [present] in Hs'. rsimpl.
    match type of Hs' with _ = stopRecording ?P ?s0 =>
      destruct (stopRecording_fields P s0) as (new & Heq & _ & _ & Hnote & _)
    end.
    rewrite Heq in Hs'. subst s'. rsimpl. rewrite <- !app_assoc.
    split; [reflexivity|]. eexists. split; [reflexivity|].
    rewrite !notices_in_app, notices_in_stops, Hnote. reflexivity.
  - destruct (includes (e_string err) (lit "permissions policy")),
      (includes (e_string err) (lit "denied"));
      cbn [orb] in Hs'; rsimpl; cbn [present] in Hs'; rsimpl;
      match type of Hs' with _ = stopRecording ?P ?s0 =>
        destruct (stopRecording_fields P s0) as (new & Heq & _ & _ & Hnote & _)
      end;
      rewrite Heq in Hs'; subst s'; rsimpl; rewrite <- !app_assoc;
      (split; [reflexivity|]);
      (eexists; split; [reflexivity|]);
      rewrite !notices_in_app, Hnote; reflexivity.
  - rsimpl. cbn [present] in Hs'. rsimpl.
    match type of Hs' with _ = stopRecording ?P ?s0 =>
      destruct (stopRecording_fields P s0) as (new & Heq & _ & _ & Hnote & _)
    end.
    rewrite Heq in Hs'. subst s'. rsimpl. rewrite <- !app_assoc.
    split; [reflexivity|]. eexists. split; [reflexivity|].
    rewrite !notices_in_app, Hnote. reflexivity.
Qed.

End RecorderMore.

(** ** More on the component *)

Section AppFacts.

(** Reading the preference back from the storage gives the preference. *)
Lemma pref_deliver e st :
  enableSystemAudio (init (localStorage st)) = enableSystemAudio st →
  enableSystemAudio (init (localStorage (deliver e st)))
  = enableSystemAudio (deliver e st).
Proof.
  intros H. destruct e; try exact H.
  unfold deliver, onError.
  destruct (includes message (lit "System audio blocked")); [|exact H].
  cbn. now rewrite lookup_insert_eq.
Qed.

Lemma pref_with_recorder f st :
  enableSystemAudio (init (localStorage st)) = enableSystemAudio st →
  enableSystemAudio (init (localStorage (with_recorder f st)))
  = enableSystemAudio (with_recorder f st).
Proof.
  intros H. unfold with_recorder.
  apply (foldl_deliver_rel
           (λ a b, enableSystemAudio (init (localStorage a)) = enableSystemAudio a →
                   enableSystemAudio (init (localStorage b)) = enableSystemAudio b)).
  - auto.
  - auto.
  - intros e st' _. apply pref_deliver.
  - exact H.
Qed.

Lemma pref_triggerAnalysis st :
  enableSystemAudio (init (localStorage st)) = enableSystemAudio st →
  enableSystemAudio (init (localStorage (triggerAnalysis st)))
  = enableSystemAudio (triggerAnalysis st).
Proof. unfold triggerAnalysis. now destruct (_ || _). Qed.

Lemma pref_handle apiKey e st :
  enableSystemAudio (init (localStorage st)) = enableSystemAudio st →
  enableSystemAudio (init (localStorage (handle apiKey e st)))
  = enableSystemAudio (handle apiKey e st).
Proof.
  intros H. destruct e; cbn [handle].
  - unfold handleToggleRecording. destruct (is_recording st).
    + now apply pref_triggerAnalysis, pref_with_recorder.
    + now apply pref_with_recorder.
  - unfold handleClear. destruct (is_recording st).
    + exact (pref_with_recorder _ st H).
    + exact H.
  - unfold toggleAudioSource. cbn. rewrite lookup_insert_eq.
    now destruct (enableSystemAudio st).
  - now apply pref_triggerAnalysis.
  - now apply pref_with_recorder.
  - now apply pref_with_recorder.
  - unfold transcription_settles.
    destruct (transcribing st !! k); [|exact H].
    unfold processAudioChunk.
    destruct (Service.transcribeAudio _ _ _ _) as [sent [text|err]].
    + now destruct (negb (truthy text)).
    + now destruct (_ || _).
  - unfold analysis_settles. destruct (analyzing st); [exact H|].
    now destruct (Service.analyzeTranscript _ _ _) as [sent [result|err]].
Qed.

End AppFacts.

(** The preference survives a reload: in every state of the component,
    mounting afresh on the current [localStorage] yields the current value of
    [enableSystemAudio].  At mount the preference is what the storage holds,
    'true' exactly, and is on when the storage holds nothing. *)
Theorem preference_survives_reload apiKey st :
  reachable apiKey st →
  enableSystemAudio (init (localStorage st)) = enableSystemAudio st ∧
  enableSystemAudio (init ∅) = true ∧
  (∀ storage saved,
     storage !! STORAGE_KEY = Some saved →
     (enableSystemAudio (init storage) = true ↔ saved = lit "true")).
Proof.
  intros Hreach. split; [|split].
  - induction Hreach as [storage | e st _ IH]; [reflexivity|].
    unfold step, analysis_effect. destruct (_ && _).
    + apply pref_triggerAnalysis, pref_handle, IH.
    + apply pref_handle, IH.
  - reflexivity.
  - intros storage saved Hsaved. unfold init. cbn [enableSystemAudio].
    rewrite Hsaved. apply bool_decide_eq_true.
Qed.

Lemma preference_survives_reload_witness :
  let st := step None ClickToggleSource (init ∅) in
  enableSystemAudio st = false ∧
  enableSystemAudio (init (localStorage st)) = false.
Proof.
  intros st.
  destruct (preference_survives_reload None st
              (reach_step None ClickToggleSource _ (reach_init None ∅)))
    as (H & _ & _).
  split; [reflexivity | rewrite H; reflexivity].
Defined.

(** The length recorded at the last analysis never exceeds the length of
    the transcript, and is never negative: the difference the effect tests
    is the number of code units added since the last analysis. *)
Theorem analyzed_length_bounds apiKey st :
  reachable apiKey st →
  0 ≤ lastAnalyzedLength st ≤ len (fullTranscript st).
Proof.
  intros Hreach.
  assert (∀ st, 0 ≤ lastAnalyzedLength st ≤ len (fullTranscript st) →
            0 ≤ lastAnalyzedLength (triggerAnalysis st)
              ≤ len (fullTranscript (triggerAnalysis st))) as Htrig.
  { intros st0 H. unfold triggerAnalysis.
    destruct (_ || _); [exact H|].
    unfold set_analyzing, setLastAnalyzedLength, setIsAnalyzing. cbn.
    unfold len. lia. }
  assert (∀ f st, 0 ≤ lastAnalyzedLength st ≤ len (fullTranscript st) →
            0 ≤ lastAnalyzedLength (with_recorder f st)
              ≤ len (fullTranscript (with_recorder f st))) as Hrec.
  { intros f st0 H.
    destruct (with_recorder_same_core f st0) as (_ & -> & _ & _ & -> & _).
    exact H. }
  induction Hreach as [storage | e st _ IH]; [unfold init, len; cbn; lia|].
  unfold step, analysis_effect.
  assert (0 ≤ lastAnalyzedLength (handle apiKey e st)
            ≤ len (fullTranscript (handle apiKey e st))) as H.
  { destruct e; cbn [handle].
    - unfold handleToggleRecording. destruct (is_recording st); auto.
    - unfold handleClear, showToast, setToast, setLastAnalyzedLength,
        setAnalysisResult, setFullTranscript, len. cbn. lia.
    - exact IH.
    - auto.
    - auto.
    - auto.
    - unfold transcription_settles.
      destruct (transcribing st !! k); [|exact IH].
      unfold processAudioChunk.
      destruct (Service.transcribeAudio _ _ _ _) as [sent [text|err]].
      + destruct (negb (truthy text)); [exact IH|].
        unfold setFullTranscript, setTranscriptChunks, set_requests,
          set_transcribing. cbn.
        unfold len in *. rewrite length_app. lia.
      + now destruct (_ || _).
    - unfold analysis_settles. destruct (analyzing st); [exact IH|].
      now destruct (Service.analyzeTranscript _ _ _) as [sent [result|err]]. }
  destruct (_ && _); auto.
Qed.

Lemma analyzed_length_bounds_witness :
  let key := Some (lit "key") in
  let st :=
    step key (TranscriptionSettles 0 sample_read (Resolved (Some long_text)) 1 2)
      (after_first_clip key) in
  lastAnalyzedLength st = len (fullTranscript st).
Proof.
  intros key st.
  pose proof (analyzed_length_bounds key st
                (reach_step _ _ _ (after_first_clip_reachable key))) as [_ H].
  assert (len (fullTranscript st) ≤ lastAnalyzedLength st)
    by (vm_compute; discriminate).
  lia.
Defined.

(** A transcription that fails leaves the chunk list and the transcript as
    they were, takes the clip out of flight and shows the message of the
    error as an error toast; the message is one of the five fixed texts of
    the service wrapper.  The test on the number of chunks in the [catch]
    block reads the chunk list of the first render, which is empty, so the
    toast is shown for every failure. *)
Theorem failed_transcription_toast apiKey k read remote d1 d2 st blob sent e :
  transcribing st !! k = Some blob →
  Service.transcribeAudio apiKey read remote blob = (sent, Throws e) →
  let st' := transcription_settles apiKey k read remote d1 d2 st in
  transcriptChunks st' = transcriptChunks st ∧
  fullTranscript st' = fullTranscript st ∧
  toast st' = Some (e_message e, toast_error) ∧
  transcribing st' = delete k (transcribing st) ∧
  e_message e ∈ [MSG_KEY_MISSING; MSG_TRANSCRIPTION_FAILED; MSG_UNAUTHORIZED;
                 MSG_USAGE_LIMIT; MSG_UNAVAILABLE].
Proof.
  intros Hk Hres st'. subst st'.
  unfold transcription_settles. rewrite Hk.
  unfold processAudioChunk. rewrite Hres. cbn.
  repeat split; try reflexivity.
  assert (∀ s, transcribeErrorMessage s ∈
                 [MSG_KEY_MISSING; MSG_TRANSCRIPTION_FAILED; MSG_UNAUTHORIZED;
                  MSG_USAGE_LIMIT; MSG_UNAVAILABLE]) as Hmsg.
  { intros s. rewrite transcribeErrorMessage_precedence.
    destruct (includes s (lit "500")); [set_solver|].
    destruct (includes s (lit "429")); [set_solver|].
    destruct (_ || _); set_solver. }
  revert Hres. unfold Service.transcribeAudio, checkApiKey.
  destruct apiKey as [key|].
  - destruct (truthy key).
    + destruct (blobToBase64 read) as [data|err].
      * destruct remote as [text|err]; intros [= _ <-]; apply Hmsg.
      * intros [= _ <-]. apply Hmsg.
    + intros [= _ <-]. set_solver.
  - intros [= _ <-]. set_solver.
Qed.

Lemma failed_transcription_toast_witness :
  let st := after_first_clip None in
  let st' :=
    transcription_settles None 0 sample_read (Resolved (Some long_text)) 1 2 st in
  toast st' = Some (MSG_KEY_MISSING, toast_error) ∧ fullTranscript st' = [].
Proof.
  intros st st'.
  destruct (failed_transcription_toast None 0 sample_read
              (Resolved (Some long_text)) 1 2 st sample_blob []
              (mkError MSG_KEY_MISSING)) as (_ & Hfull & Htoast & _).
  - vm_compute. reflexivity.
  - reflexivity.
  - split; [exact Htoast | subst st'; rewrite Hfull; vm_compute; reflexivity].
Defined.

(** The analysis flag cannot stay set: in a state of the component where
    [isAnalyzing] is set, exactly one call of [analyzeTranscript] is in
    flight, and when it settles, however it does, the flag is cleared and
    nothing is left in flight.  A result replaces [analysisResult]; a
    failure keeps the previous result and shows the message of the error as
    an error toast.  The transcript is not touched. *)
Theorem analysis_flag_cleared apiKey remote st :
  reachable apiKey st → isAnalyzing st = true →
  let st' := analysis_settles apiKey remote st in
  isAnalyzing st' = false ∧ analyzing st' = [] ∧
  fullTranscript st' = fullTranscript st ∧
  transcriptChunks st' = transcriptChunks st ∧
  ∃ t, analyzing st = [t] ∧
       match (Service.analyzeTranscript apiKey remote t).2 with
       | Returns result =>
           analysisResult st' = result ∧ toast st' = toast st
       | Throws e =>
           analysisResult st' = analysisResult st ∧
           toast st' = Some (e_message e, toast_error)
       end.
Proof.
  intros Hreach Hflag st'. subst st'.
  destruct (single_flight_reachable apiKey st Hreach)
    as [[Hoff _] | [_ [t Hq]]]; [congruence|].
  unfold analysis_settles. rewrite Hq.
  assert (∀ P : jsstr → Prop, P t → ∃ t', [t] = [t'] ∧ P t') as Hex
    by (intros P HP; exists t; now split).
  destruct (Service.analyzeTranscript apiKey remote t)
    as [sent [result|e]] eqn:Hres;
    cbn; do 4 (split; [reflexivity|]);
    apply Hex; rewrite Hres; now split.
Qed.

Lemma analysis_flag_cleared_witness :
  let key := Some (lit "key") in
  let st :=
    step key (TranscriptionSettles 0 sample_read (Resolved (Some long_text)) 1 2)
      (after_first_clip key) in
  let st' := analysis_settles key (Rejected quota_error) st in
  isAnalyzing st = true ∧ isAnalyzing st' = false ∧ analyzing st' = [].
Proof.
  intros key st st'.
  assert (isAnalyzing st = true) as Hflag by (vm_compute; reflexivity).
  destruct (analysis_flag_cleared key (Rejected quota_error) st
              (reach_step _ _ _ (after_first_clip_reachable key)) Hflag)
    as (H1 & H2 & _).
  now repeat split.
Defined.

(** ** The transcript view *)

Module TranscriptViewFacts.
Import TranscriptView.

Lemma toInt32_range x : - 2 ^ 31 ≤ toInt32 x < 2 ^ 31.
Proof.
  unfold toInt32. pose proof (Z.mod_pos_bound x (2 ^ 32) ltac:(lia)) as H.
  destruct (Z.ltb_spec (x mod 2 ^ 32) (2 ^ 31)); lia.
Qed.

Lemma speakerHash_from_bound (name : jsstr) (h0 : Z) :
  Forall (λ c, (c < 65536)%N) name →
  Z.abs (foldl (λ hash c, Z.of_N c + (shl5 hash - hash)) h0 name)
  ≤ Z.abs h0 + Z.of_nat (List.length name) * (2 ^ 31 + 2 ^ 16).
Proof.
  revert h0. induction name as [|c name IH]; intros h0 Hall.
  - cbn. lia.
  - apply Forall_cons in Hall as [Hc Hall].
    cbn [foldl List.length]. specialize (IH (Z.of_N c + (shl5 h0 - h0)) Hall).
    pose proof (toInt32_range (Z.shiftl (toInt32 h0) 5)) as Hsh.
    fold (shl5 h0) in Hsh. lia.
Qed.

(** [getSpeakerColor] always yields one of the six colour classes: the
    index [Math.abs(hash) % 6] is within the array whatever the name.  For a
    name of [n] code units the hash stays within [n * (2^31 + 2^16)] in
    absolute value, so for any name shorter than four million units every
    number of the loop is an integer below 2^53. *)
Theorem getSpeakerColor_total (speakerName : jsstr) :
  (∃ c, getSpeakerColor speakerName = Some c ∧ c ∈ colors) ∧
  (Forall (λ c, (c < 65536)%N) speakerName →
   Z.abs (speakerHash speakerName)
   ≤ Z.of_nat (List.length speakerName) * (2 ^ 31 + 2 ^ 16)).
Proof.
  split.
  - unfold getSpeakerColor.
    set (h := Z.abs (speakerHash speakerName)).
    assert (0 ≤ Z.rem h (Z.of_nat (List.length colors))
            < Z.of_nat (List.length colors)) as Hidx.
    { apply Z.rem_bound_pos; [subst h; lia | cbn; lia]. }
    destruct (lookup_lt_is_Some_2 colors
                (Z.to_nat (Z.rem h (Z.of_nat (List.length colors)))))
      as [c Hc]; [lia|].
    exists c. split; [exact Hc|]. now apply list_elem_of_lookup_2 in Hc.
  - intros Hall. unfold speakerHash.
    pose proof (speakerHash_from_bound speakerName 0 Hall). lia.
Qed.

Lemma getSpeakerColor_total_witness :
  getSpeakerColor (lit "Speaker 12345678")
  = Some (lit "text-purple-400 border-purple-400/30 bg-purple-400/10") ∧
  Z.abs (speakerHash (lit "Speaker 12345678")) ≤ 16 * (2 ^ 31 + 2 ^ 16).
Proof.
  destruct (getSpeakerColor_total (lit "Speaker 12345678")) as [_ Hbound].
  split; [vm_compute; reflexivity|].
  apply Hbound.
  apply (bool_decide_unpack (Forall (λ c, (c < 65536)%N) _)).
  vm_compute. exact I.
Defined.

Lemma lower_colon c : lower c = colon → c = colon.
Proof.
  unfold lower, colon.
  destruct ((65 <=? c) && (c <=? 90))%N eqn:H; [|auto].
  apply andb_true_iff in H as [H1 H2].
  apply N.leb_le in H1. lia.
Qed.

Lemma literal_spec pat s rest :
  literal pat s = Some rest →
  s = take (List.length pat) s ++ rest ∧
  lower <$> take (List.length pat) s = pat ∧
  List.length (take (List.length pat) s) = List.length pat.
Proof.
  revert s. induction pat as [|p pat IH]; intros s.
  - intros [= <-]. now repeat split.
  - destruct s as [|c s]; [discriminate|]. cbn [literal].
    destruct (N.eqb_spec (lower c) p) as [<-|]; [|discriminate].
    intros H. destruct (IH s H) as (H1 & H2 & H3). cbn.
    rewrite H2, H3. now rewrite <- H1.
Qed.

Lemma literal_colon_free pat s rest :
  colon ∉ pat → literal pat s = Some rest →
  colon ∉ take (List.length pat) s.
Proof.
  intros Hpat H Hin. apply literal_spec in H as (_ & Hlow & _).
  apply Hpat. rewrite <- Hlow.
  apply list_elem_of_fmap. exists colon. split; [reflexivity | exact Hin].
Qed.

Lemma span_spec f s a b :
  span f s = (a, b) → s = a ++ b ∧ Forall (λ c, f c = true) a.
Proof.
  revert a b. induction s as [|c s IH]; intros a b; cbn.
  - intros [= <- <-]. now split.
  - destruct (f c) eqn:Hc.
    + destruct (span f s) as [a' b'] eqn:Hs. intros [= <- <-].
      destruct (IH a' b' eq_refl) as [-> Hall]. split; [reflexivity|].
      now constructor.
    + intros [= <- <-]. now split.
Qed.

Lemma span_all f a c rest :
  Forall (λ c, f c = true) a → f c = false →
  span f (a ++ c :: rest) = (a, c :: rest).
Proof.
  intros Hall Hc. induction Hall as [|d a Hd _ IH]; cbn.
  - now rewrite Hc.
  - now rewrite Hd, IH.
Qed.

Lemma expect_colon_spec label s l r :
  expect_colon label s = Some (l, r) → l = label ∧ s = colon :: r.
Proof.
  destruct s as [|c rest]; [discriminate|]. cbn.
  destruct (N.eqb_spec c colon) as [->|]; [|discriminate].
  now intros [= <- <-].
Qed.

Lemma digits_colon_free ds : Forall (λ c, is_digit c = true) ds → colon ∉ ds.
Proof.
  intros Hall Hin. rewrite Forall_forall in Hall.
  specialize (Hall colon Hin). discriminate.
Qed.

Lemma numbered_spec word line label rest :
  colon ∉ word → word ≠ [] →
  numbered word line = Some (label, rest) →
  line = label ++ colon :: rest ∧ label ≠ [] ∧ colon ∉ label.
Proof.
  intros Hword Hne. unfold numbered.
  destruct (literal word line) as [after|] eqn:Hlit; [|discriminate].
  destruct (span is_digit after) as [ds tail] eqn:Hspan.
  destruct ds as [|d ds]; [discriminate|].
  intros H. apply expect_colon_spec in H as [-> ->].
  pose proof (literal_colon_free _ _ _ Hword Hlit) as Hfree.
  apply literal_spec in Hlit as (Hline & _ & Hlen).
  apply span_spec in Hspan as [-> Hdig].
  set (pre := take (List.length word) line) in *.
  assert (take (List.length word + List.length (d :: ds)) line
          = pre ++ d :: ds) as ->.
  { rewrite Hline at 1. rewrite <- Hlen at 1.
    rewrite take_app_add'. 2: reflexivity.
    f_equal. rewrite take_app_length'; reflexivity. }
  split; [now rewrite <- app_assoc|]. split.
  - now destruct pre.
  - intros Hin. apply elem_of_app in Hin as [Hin | Hin]; [now apply Hfree|].
    now apply (digits_colon_free _ Hdig).
Qed.

Lemma colon_free_decide (pat : jsstr) :
  bool_decide (colon ∉ pat) = true → colon ∉ pat.
Proof. apply bool_decide_eq_true_1. Qed.

(** When a line matches the speaker pattern, the line is the label, a colon
    and the remainder, in that order; the label is not empty and holds no
    colon, so the message shown is all of the line after its first colon,
    trimmed. *)
Theorem matchSpeaker_sound line label rest :
  matchSpeaker line = Some (label, rest) →
  line = label ++ colon :: rest ∧ label ≠ [] ∧ (colon ∉ label) ∧
  renderLine line = Labelled label (trim rest) (getSpeakerColor label).
Proof.
  intros H.
  assert (line = label ++ colon :: rest ∧ label ≠ [] ∧ colon ∉ label)
    as (H1 & H2 & H3).
  { revert H. unfold matchSpeaker.
    destruct (numbered (lit "speaker ") line) as [m|] eqn:Hn1.
    { intros [= ->]. revert Hn1. apply numbered_spec; [|discriminate].
      apply colon_free_decide. reflexivity. }
    destruct (lettered line) as [m|] eqn:Hl.
    { intros [= ->]. revert Hl. unfold lettered.
      destruct (literal (lit "speaker ") line) as [[|c after]|] eqn:Hlit;
        try discriminate.
      destruct (is_alpha c) eqn:Hc; [|discriminate].
      intros H. apply expect_colon_spec in H as [-> ->].
      pose proof (literal_colon_free (lit "speaker ") _ _
                    (colon_free_decide (lit "speaker ") eq_refl) Hlit)
        as Hfree.
      apply literal_spec in Hlit as (Hline & _ & Hlen).
      set (pre := take (List.length (lit "speaker ")) line) in *.
      assert (take 9 line = pre ++ [c]) as ->.
      { rewrite Hline at 1.
        change 9%nat with (List.length (lit "speaker ") + 1)%nat.
        rewrite <- Hlen at 1. rewrite take_app_add'. 2: reflexivity.
        reflexivity. }
      split; [now rewrite <- app_assoc|]. split; [now destruct pre|].
      intros Hin. apply elem_of_app in Hin as [Hin | Hin];
        [now apply Hfree|].
      apply list_elem_of_singleton in Hin. subst c. discriminate. }
    destruct (numbered (lit "participant ") line) as [m|] eqn:Hn2.
    { intros [= ->]. revert Hn2. apply numbered_spec; [|discriminate].
      apply colon_free_decide. reflexivity. }
    unfold user.
    destruct (literal (lit "user") line) as [after|] eqn:Hlit; [|discriminate].
    intros H. apply expect_colon_spec in H as [-> ->].
    pose proof (literal_colon_free (lit "user") _ _
                  (colon_free_decide (lit "user") eq_refl) Hlit) as Hfree.
    apply literal_spec in Hlit as (Hline & _ & Hlen).
    split; [exact Hline|]. split; [|exact Hfree].
    intros Hnil. change (take 4 line) with
      (take (List.length (lit "user")) line) in Hnil.
    now rewrite Hnil in Hlen. }
  repeat split; try assumption.
  unfold renderLine. now rewrite H.
Qed.

Lemma matchSpeaker_sound_witness :
  lit "speaker 12: hello: x" = lit "speaker 12" ++ colon :: lit " hello: x" ∧
  renderLine (lit "speaker 12: hello: x")
  = Labelled (lit "speaker 12") (lit "hello: x")
      (getSpeakerColor (lit "speaker 12")).
Proof.
  destruct (matchSpeaker_sound (lit "speaker 12: hello: x") (lit "speaker 12")
              (lit " hello: x") eq_refl) as (H1 & _ & _ & H4).
  split; [exact H1 | exact H4].
Defined.

(** A line in the format the transcription prompt asks for, 'Speaker'
    followed by a space, a number and a colon, is always recognised: the
    label is 'Speaker' with its number and the remainder is what follows the
    colon. *)
Theorem matchSpeaker_prompt_format (ds rest : jsstr) :
  ds ≠ [] → Forall (λ c, is_digit c = true) ds →
  matchSpeaker (lit "Speaker " ++ ds ++ colon :: rest)
  = Some (lit "Speaker " ++ ds, rest).
Proof.
  intros Hne Hdig. unfold matchSpeaker, numbered.
  change (literal (lit "speaker ") (lit "Speaker " ++ ds ++ colon :: rest))
    with (Some (ds ++ colon :: rest)).
  cbv beta iota.
  rewrite (span_all is_digit ds colon rest Hdig eq_refl).
  destruct ds as [|d ds]; [congruence|]. cbv beta iota.
  change (List.length (lit "speaker ")) with (List.length (lit "Speaker ")).
  rewrite take_app_add'. 2: reflexivity.
  rewrite take_app_length. cbn [expect_colon]. now rewrite N.eqb_refl.
Qed.

Lemma matchSpeaker_prompt_format_witness :
  matchSpeaker (lit "Speaker 2: Agreed.") = Some (lit "Speaker 2", lit " Agreed.").
Proof.
  apply (matchSpeaker_prompt_format (lit "2") (lit " Agreed.")).
  - discriminate.
  - repeat constructor.
Defined.

Lemma split_nonempty sep (s : jsstr) : split sep s ≠ [].
Proof.
  induction s as [|c s IH]; [discriminate|]. cbn.
  destruct (c =? sep)%N; [discriminate|]. now destruct (split sep s).
Qed.

Lemma split_parts_sep_free sep (s : jsstr) :
  Forall (λ l, sep ∉ l) (split sep s).
Proof.
  induction s as [|c s IH]; cbn.
  - repeat constructor. apply not_elem_of_nil.
  - destruct (N.eqb_spec c sep) as [->|Hne].
    + constructor; [apply not_elem_of_nil | exact IH].
    + destruct (split sep s) as [|w ws]; [repeat constructor|].
      * intros Hin. apply list_elem_of_singleton in Hin. congruence.
      * apply Forall_cons in IH as [Hw Hws]. constructor; [|exact Hws].
        intros Hin. apply elem_of_cons in Hin as [Hin | Hin]; congruence.
Qed.

(** A string that is not blank has a line that is not blank. *)
Lemma split_keeps_text (s : jsstr) :
  blank s = false → Exists (λ l, blank l = false) (split LF s).
Proof.
  induction s as [|c s IH]; [discriminate|].
  intros Hb. cbn [split].
  destruct (N.eqb_spec c LF) as [->|Hne].
  - right. apply IH. exact Hb.
  - pose proof (split_nonempty LF s) as Hsplit.
    destruct (split LF s) as [|w ws]; [congruence|].
    unfold blank in *. cbn [forallb] in Hb.
    destruct (is_space c) eqn:Hc.
    + cbn in Hb. apply IH in Hb. apply Exists_cons in Hb as [Hw | Hws].
      * left. cbn. now rewrite Hc.
      * now right.
    + left. cbn. now rewrite Hc.
Qed.

(** The lines of a blank string are all blank. *)
Lemma split_blank (s : jsstr) :
  blank s = true → Forall (λ l, blank l = true) (split LF s).
Proof.
  induction s as [|c s IH]; [now repeat constructor|].
  intros Hb. unfold blank in Hb. cbn [forallb] in Hb.
  apply andb_true_iff in Hb as [Hc Hs]. specialize (IH Hs). cbn [split].
  destruct (c =? LF)%N; [now constructor|].
  destruct (split LF s) as [|w ws]; [repeat constructor; cbn; now rewrite Hc|].
  apply Forall_cons in IH as [Hw Hws]. constructor; [|exact Hws].
  unfold blank in *. cbn. now rewrite Hc.
Qed.

(** [TranscriptItem] renders the lines of a text that are not blank, none
    of which holds a line feed; it renders nothing exactly when the text is
    blank, and so every chunk the component has stored is shown with at
    least one line. *)
Theorem transcript_lines_shown :
  (∀ text l, l ∈ lines text → blank l = false ∧ LF ∉ l) ∧
  (∀ text, TranscriptItem text = [] ↔ blank text = true) ∧
  (∀ apiKey st c,
     App.reachable apiKey st → c ∈ App.transcriptChunks st →
     TranscriptItem (App.text c) ≠ []).
Proof.
  assert (∀ text, lines text = [] ↔ blank text = true) as Hlines.
  { intros text. unfold lines. split.
    - intros Hnil. destruct (blank text) eqn:Hb; [reflexivity|].
      apply split_keeps_text in Hb. apply Exists_exists in Hb as (l & Hin & Hl).
      assert (l ∈ List.filter (λ line, truthy (trim line)) (split LF text))
        as Hmem.
      { apply list_elem_of_In, filter_In. split.
        - now apply list_elem_of_In.
        - now rewrite truthy_trim, Hl. }
      rewrite Hnil in Hmem. now apply not_elem_of_nil in Hmem.
    - intros Hb. apply split_blank in Hb.
      induction Hb as [|l ls Hl _ IH]; [reflexivity|].
      cbn. now rewrite truthy_trim, Hl. }
  split; [|split].
  - intros text l Hin. unfold lines in Hin.
    apply list_elem_of_In, filter_In in Hin as [Hin Hl].
    rewrite truthy_trim in Hl. split; [now destruct (blank l)|].
    pose proof (split_parts_sep_free LF text) as Hfree.
    rewrite Forall_forall in Hfree. apply Hfree. now apply list_elem_of_In.
  - intros text. rewrite <- Hlines. unfold TranscriptItem.
    split; [apply fmap_nil_inv | now intros ->].
  - intros apiKey st c Hreach Hin Hnil.
    destruct (wf_reachable apiKey st Hreach) as (_ & Hspoken & _).
    unfold App.spoken in Hspoken. rewrite Forall_forall in Hspoken.
    specialize (Hspoken c Hin).
    unfold TranscriptItem in Hnil. apply fmap_nil_inv in Hnil.
    apply Hlines in Hnil. congruence.
Qed.

Lemma transcript_lines_shown_witness :
  let key := Some (lit "key") in
  let st :=
    App.step key
      (App.TranscriptionSettles 0 sample_read (Resolved (Some long_text)) 1 2)
      (after_first_clip key) in
  App.transcriptChunks st ≠ [] ∧
  Forall (λ c, TranscriptItem (App.text c) ≠ []) (App.transcriptChunks st).
Proof.
  intros key st. split; [vm_compute; discriminate|].
  destruct transcript_lines_shown as (_ & _ & H).
  apply Forall_forall. intros c Hin.
  exact (H key st c (App.reach_step _ _ _ (after_first_clip_reachable key)) Hin).
Defined.

End TranscriptViewFacts.

(** ** The analysis view *)

Module AnalysisViewFacts.
Import AnalysisView.

(** [handleDownload] does nothing for an empty summary; otherwise it offers
    the summary itself as 'text/markdown' under a name that starts with
    'meeting-summary-', ends with '.md' and, every colon of the time stamp
    having been replaced, holds no colon at all. *)
Theorem handleDownload_name analysisMarkdown iso :
  (handleDownload analysisMarkdown iso = None ↔ analysisMarkdown = []) ∧
  ∀ d, handleDownload analysisMarkdown iso = Some d →
       content d = analysisMarkdown ∧
       content_type d = lit "text/markdown" ∧
       (58%N ∉ download d) ∧
       download d = lit "meeting-summary-" ++ stamp iso ++ lit ".md" ∧
       List.length (download d) = (19 + List.length iso `min` 19)%nat.
Proof.
  unfold handleDownload. split.
  - destruct analysisMarkdown; cbn; split; congruence.
  - intros d. destruct (negb (truthy analysisMarkdown)); [discriminate|].
    intros Heq.
    assert (d = {| content := analysisMarkdown;
                   content_type := lit "text/markdown";
                   download := lit "meeting-summary-" ++ stamp iso ++ lit ".md" |})
      as -> by congruence.
    clear Heq. cbv beta iota delta [content content_type download].
    split; [reflexivity|]. split; [reflexivity|]. split; [|split].
    + intros Hin.
      apply elem_of_app in Hin as [Hin | Hin];
        [|apply elem_of_app in Hin as [Hin | Hin]].
      * revert Hin. apply (bool_decide_unpack (58%N ∉ lit "meeting-summary-")).
        vm_compute. exact I.
      * unfold stamp in Hin. apply list_elem_of_fmap in Hin as (c & Hc & _).
        destruct (N.eqb_spec c 58); [discriminate | congruence].
      * revert Hin. apply (bool_decide_unpack (58%N ∉ lit ".md")).
        vm_compute. exact I.
    + reflexivity.
    + rewrite !length_app. unfold stamp. rewrite length_fmap, length_take.
      change (List.length (lit "meeting-summary-")) with 16%nat.
      change (List.length (lit ".md")) with 3%nat. lia.
Qed.

Lemma handleDownload_name_witness :
  ∃ d, handleDownload (lit "### Updated Summary So Far")
         (lit "2026-11-03T06:56:07.123Z") = Some d ∧
       download d = lit "meeting-summary-2026-11-03T06-56-07.md" ∧
       58%N ∉ download d.
Proof.
  eexists. split; [reflexivity|]. split; [reflexivity|].
  destruct (handleDownload_name (lit "### Updated Summary So Far")
              (lit "2026-11-03T06:56:07.123Z")) as [_ H].
  exact (proj1 (proj2 (proj2 (H _ eq_refl)))).
Defined.

End AnalysisViewFacts.

(** ** The component and its recorder *)

Section AppHook.

Lemma recorder_triggerAnalysis st :
  recorder (triggerAnalysis st) = recorder st.
Proof. unfold triggerAnalysis. now destruct (_ || _). Qed.

Lemma toast_analysis_effect st : toast (analysis_effect st) = toast st.
Proof.
  unfold analysis_effect, triggerAnalysis.
  destruct (_ && _); [|reflexivity]. now destruct (_ || _).
Qed.

(** The hook inside the component only goes through states of the hook, and
    between two events of the component no call of [startChunkLoop] is
    suspended. *)
Lemma app_recorder_reachable apiKey st :
  reachable apiKey st →
  Recorder.reachable (recorderProps (init ∅))
    {| Recorder.current := recorder st; Recorder.suspended := [] |}.
Proof.
  induction 1 as [storage | e st _ IH]; [apply Recorder.reach_init|].
  unfold step. rewrite recorder_analysis_effect.
  destruct e; cbn [handle].
  - unfold handleToggleRecording. destruct (is_recording st).
    + rewrite recorder_triggerAnalysis, with_recorder_recorder.
      exact (Recorder.reach_op _ (Recorder.Stop p) _ IH).
    + rewrite with_recorder_recorder,
        RecorderMore.startChunkLoop_uninterrupted.
      exact (RecorderMore.reach_uninterrupted _ p _ IH eq_refl).
  - unfold handleClear. cbn [recorder showToast setToast setLastAnalyzedLength
      setAnalysisResult setFullTranscript setTranscriptChunks].
    destruct (is_recording st); [|exact IH].
    rewrite with_recorder_recorder.
    exact (Recorder.reach_op _ (Recorder.Stop p) _ IH).
  - exact IH.
  - now rewrite recorder_triggerAnalysis.
  - rewrite with_recorder_recorder.
    exact (Recorder.reach_op _ (Recorder.Tick p) _ IH).
  - rewrite with_recorder_recorder.
    exact (Recorder.reach_op _ (Recorder.Ended p) _ IH).
  - unfold transcription_settles.
    destruct (transcribing st !! k); [|exact IH].
    unfold processAudioChunk.
    destruct (Service.transcribeAudio _ _ _ _) as [sent [text|err]].
    + now destruct (negb (truthy text)).
    + now destruct (_ || _).
  - unfold analysis_settles. destruct (analyzing st); [exact IH|].
    now destruct (Service.analyzeTranscript _ _ _) as [sent [result|err]].
Qed.

(** The toast after a run of the hook is the last thing it reported. *)
Lemma toast_deliveries l st :
  toast (foldl (λ st e, deliver e st) st l) =
  match last (Recorder.notices_in l) with
  | Some (m, t) => Some (m, toast_of t)
  | None => toast st
  end.
Proof.
  induction l as [|e l IH] using rev_ind; [reflexivity|].
  rewrite foldl_app, RecorderFacts.notices_in_app. cbn [foldl].
  destruct e as [| |message ty| | | | | | | | | |];
    try (change (Recorder.notices_in [_]) with (@nil (jsstr * Recorder.NoticeType));
         rewrite app_nil_r; exact IH).
  change (Recorder.notices_in [Recorder.OnError message ty])
    with [(message, ty)].
  rewrite last_snoc. cbn [deliver]. unfold onError.
  now destruct (includes message (lit "System audio blocked")).
Qed.

End AppHook.

(** Clearing, and stopping with the record button: in every state of the
    component the button shows a recording exactly when the hook's flag is
    set.  When it shows one, a clear or a press of the record button calls
    [stopRecording]: the hook is then idle, its three refs are empty, the
    tracks [streamTracksRef] held are stopped, each once, and the recorder
    [mediaRecorderRef] pointed to no longer records.  When it shows none, a
    clear does not call the hook at all, which keeps whatever it holds. *)
Theorem capture_released apiKey st p :
  (reachable apiKey st →
   is_recording st = Recorder.isRecordingRef (recorder st)) ∧
  (is_recording st = true →
   ∀ e, e = ClickClear p ∨ e = ClickRecord p →
        let s := recorder st in
        let s' := recorder (step apiKey e st) in
        is_recording (step apiKey e st) = false ∧
        Recorder.isRecordingRef s' = false ∧
        Recorder.streamTracksRef s' = [] ∧
        Recorder.audioContextRef s' = None ∧
        Recorder.mediaRecorderRef s' = None ∧
        Recorder.stopped_in (Recorder.since s s') = Recorder.streamTracksRef s ∧
        ∀ r mr, Recorder.mediaRecorderRef s = Some r →
                Recorder.recorders s' !! r = Some mr →
                Recorder.recording mr = false) ∧
  (is_recording st = false →
   recorder (step apiKey (ClickClear p) st) = recorder st).
Proof.
  split; [|split].
  - intros Hreach.
    apply app_recorder_reachable, RecorderMore.reachable_hook_inv in Hreach
      as (Ha & _). cbn [Recorder.current] in Ha.
    unfold is_recording. rewrite Ha.
    now destruct (Recorder.isRecordingRef (recorder st)).
  - intros Hrec e He s s'.
    assert (s' = Recorder.stopRecording p s) as Hs'.
    { subst s s'. unfold step. rewrite recorder_analysis_effect.
      destruct He as [-> | ->]; cbn [handle].
      - unfold handleClear. rewrite Hrec.
        cbn [recorder showToast setToast setLastAnalyzedLength
             setAnalysisResult setFullTranscript setTranscriptChunks].
        apply with_recorder_recorder.
      - unfold handleToggleRecording. rewrite Hrec.
        rewrite recorder_triggerAnalysis. apply with_recorder_recorder. }
    destruct (RecorderMore.stopRecording_fields p s)
      as (new & Heq & Hstop & _).
    split.
    { unfold is_recording. fold s'. rewrite Hs', Heq. reflexivity. }
    rewrite Hs'.
    rewrite (RecorderFacts.since_app s _ new) by now rewrite Heq.
    rewrite Heq. cbn [Recorder.isRecordingRef Recorder.streamTracksRef
      Recorder.audioContextRef Recorder.mediaRecorderRef Recorder.recorders].
    repeat split; try assumption.
    intros r mr. apply RecorderMore.halted_ref.
  - intros Hidle. unfold step. rewrite recorder_analysis_effect.
    cbn [handle]. unfold handleClear. rewrite Hidle. reflexivity.
Qed.

Lemma capture_released_witness :
  let key := Some (lit "key") in
  let st := after_first_clip key in
  is_recording st = true ∧
  is_recording (step key (ClickRecord mic_only) st) = false ∧
  Recorder.streamTracksRef (recorder (step key (ClickClear mic_only) st)) = [].
Proof.
  intros key st.
  destruct (capture_released key st mic_only) as (Hsync & H & _).
  assert (is_recording st = true) as Hrec.
  { rewrite (Hsync (after_first_clip_reachable key)). vm_compute.
    reflexivity. }
  destruct (H Hrec (ClickRecord mic_only) (or_intror eq_refl)) as (H1 & _).
  destruct (H Hrec (ClickClear mic_only) (or_introl eq_refl))
    as (_ & _ & H2 & _).
  split; [exact Hrec|]. split; [exact H1 | exact H2].
Defined.

(** When the record button is pressed on an idle component and neither the
    screen share nor the microphone yields audio, the component stays idle,
    the transcript is untouched, and the toast shown at the end is the error
    'Could not access Microphone or System Audio. Please check
    permissions.', whatever was reported before it. *)
Theorem no_source_toast apiKey st p :
  reachable apiKey st → is_recording st = false →
  Recorder.system_audio_available p = false →
  (∃ e, Recorder.userMedia p = Rejected e) →
  is_recording (step apiKey (ClickRecord p) st) = false ∧
  toast (step apiKey (ClickRecord p) st)
  = Some (Recorder.MSG_NO_SOURCE, toast_error) ∧
  fullTranscript (step apiKey (ClickRecord p) st) = fullTranscript st.
Proof.
  intros Hreach Hidle Havail Hmic.
  assert (Recorder.isRecordingRef (recorder st) = false) as Hflag.
  { apply app_recorder_reachable, RecorderMore.reachable_hook_inv in Hreach
      as (Ha & _). cbn [Recorder.current] in Ha.
    unfold is_recording in Hidle. rewrite Ha in Hidle.
    now destruct (Recorder.isRecordingRef (recorder st)). }
  destruct (RecorderMore.start_no_source_notice p (recorderProps st)
              (recorder st) Hflag Havail Hmic) as (Hstate & new & Hlog & Hlast).
  unfold step. rewrite toast_analysis_effect, fullTranscript_analysis_effect.
  unfold is_recording. rewrite recorder_analysis_effect.
  cbn [handle]. unfold handleToggleRecording. rewrite Hidle.
  split; [|split].
  - now rewrite with_recorder_recorder, Hstate.
  - unfold with_recorder. rewrite toast_deliveries.
    unfold Recorder.since in *. rewrite Hlog, drop_app_length, Hlast.
    reflexivity.
  - apply fullTranscript_with_recorder.
Qed.

Lemma no_source_toast_witness :
  toast (step None (ClickRecord nothing_granted) (init ∅))
  = Some (Recorder.MSG_NO_SOURCE, toast_error).
Proof.
  destruct (no_source_toast None (init ∅) nothing_granted (reach_init None ∅)
              eq_refl eq_refl) as (_ & H & _).
  - eexists. reflexivity.
  - exact H.
Defined.
